(** * XOpt: the argument scanner of [xopt.c]

    A shallow embedding of [xopt_parse] and its helpers
    ([_xopt_parse_arg], [_xopt_assert_increment], [_xopt_get_size],
    [_xopt_set_err]) together with the properties of the scanner that the
    specification states.

    Conventions.
    - A C string is a [string]; its terminating NUL is not part of the
      contents, reading one position past the contents yields [NUL].
    - [int] and [size_t] variables that never leave their range
      ([argc], [argi], [extrasCount], [extrasCapac]) are [Z]; the
      [size_t length] that drives [while (length--)] is a [nat].
    - The argument vector is the list of its [argc] strings; [argv[argc]]
      is the null pointer that closes every argument vector.
    - [*err] and [*data] are caller memory mutated by the scanner: they
      are threaded explicitly (record [env]), together with the trace of
      the calls made to the value-setting sink [_xopt_set].
    - A computation whose behaviour C leaves undefined (a store outside
      the allocated block, a null dereference) yields [Undefined]. *)

From Stdlib Require Import ZArith String Ascii Lia.
From stdpp Require Import base option list.

Local Open Scope string_scope.
Local Open Scope Z_scope.

(** ** C strings *)

Definition NUL : ascii := Ascii.zero.

(** [s[i]], the terminator included. *)
Definition char_at (s : string) (i : nat) : ascii :=
  match String.get i s with
  | Some c => c
  | None => NUL
  end.

Definition strlen (s : string) : nat := String.length s.

(** [s + n] for [n <= strlen s]. *)
Fixpoint str_advance (n : nat) (s : string) : string :=
  match n, s with
  | O, _ => s
  | S n', String _ s' => str_advance n' s'
  | S _, EmptyString => EmptyString
  end.

(** The C string produced by a format [prefix%c]: a NUL argument ends the
    message right after the prefix. *)
Definition fmt_c (prefix : string) (c : ascii) : string :=
  if Ascii.eqb c NUL then prefix else (prefix ++ String c EmptyString)%string.

(** ** Outcomes of a C computation *)

Inductive outcome (A : Type) : Type :=
| Returns (a : A)
| Undefined
| OutOfFuel.

Arguments Returns {A} a.
Arguments Undefined {A}.
Arguments OutOfFuel {A}.

#[global] Instance outcome_ret : MRet outcome := @Returns.

#[global] Instance outcome_bind : MBind outcome := fun A B k m =>
  match m with
  | Returns a => k a
  | Undefined => Undefined
  | OutOfFuel => OutOfFuel
  end.

(** ** The declarations of [xopt.h] *)

(** Modelled from the spec: the header [xopt.h] is absent. An option holds
    an optional long name, a short identifier ([NUL] when it has none, the
    source prints it with [%c]) and its "requires a value" flag. *)
Record xoptOption : Type := {
  longArg : option string;
  shortArg : ascii;
  requiresArg : bool
}.

(** Modelled from the spec: the behaviour flags of [xopt.h], "independent
    bits, combinable". *)
Definition XOPT_CTX_KEEPFIRST : Z := 1.
Definition XOPT_CTX_POSIXMEHARDER : Z := 2.
Definition XOPT_CTX_NOCONDENSE : Z := 4.
Definition XOPT_CTX_SLOPPYSHORTS : Z := 8.
Definition XOPT_CTX_STRICT : Z := 16.

(** [struct xoptContext]; the option table is a list instead of a
    sentinel-terminated array. *)
Record xoptContext : Type := {
  options : list xoptOption;
  flags : Z;
  name : string
}.

(** [ctx->flags & f] as a C truth value. *)
Definition has_flag (ctx : xoptContext) (f : Z) : bool :=
  negb (Z.land (flags ctx) f =? 0).

Definition EXTRAS_INIT : Z := 10.

(** The static error buffer: [errbuf[ERRBUF_SIZE]]. Formatting into it
    with the size [ERRBUF_SIZE] keeps at most [ERRBUF_SIZE - 1]
    characters of a message, the last byte being the terminator. *)
Definition ERRBUF_SIZE : Z := 1024 * 4.

Definition errbuf_cut (msg : string) : string :=
  String.substring 0 (Z.to_nat (ERRBUF_SIZE - 1)) msg.

Arguments errbuf_cut msg : simpl never.

(** ** Classification *)

(** [_xopt_get_size]: the number of leading dashes, at most two. The loop
    [for (size = 0; size < 2; size++)] is unrolled. *)
Definition _xopt_get_size (arg : string) : Z :=
  if negb (Ascii.eqb (char_at arg 0) "-") then 0
  else if negb (Ascii.eqb (char_at arg 1) "-") then 1
  else 2.

(** Modelled from the spec: the body of [_xopt_get_arg] is absent (only its
    prototype is in [xopt.c]). "Look up the matching Option by short
    identifier"; the table "must expose short-identifier and long-name
    lookup". The result is the pair of the returned [requiresArg] and of
    the option written to [*out] ([None] for a null pointer). *)
Fixpoint find_short (c : ascii) (opts : list xoptOption) : option xoptOption :=
  match opts with
  | [] => None
  | o :: opts' => if Ascii.eqb (shortArg o) c then Some o else find_short c opts'
  end.

Fixpoint find_long (n : string) (opts : list xoptOption) : option xoptOption :=
  match opts with
  | [] => None
  | o :: opts' =>
      match longArg o with
      | Some l => if String.eqb l n then Some o else find_long n opts'
      | None => find_long n opts'
      end
  end.

Definition _xopt_get_arg (arg : string) (len : nat) (opts : list xoptOption)
    (size : Z) : bool * option xoptOption :=
  let found :=
    if size =? 1 then find_short (char_at arg 0) opts
    else find_long (String.substring 0 len arg) opts in
  match found with
  | Some o => (requiresArg o, Some o)
  | None => (false, None)
  end.

Section Scanner.

(** The destination [void *data] and the value-setting sink [_xopt_set]:
    an opaque collaborator that receives the destination, the matched
    option and a value ([None] for a null pointer), updates the
    destination and may report an error message of its own. *)
Variable data : Type.
Variable _xopt_set : data -> xoptOption -> option string -> data * option string.

(** The platform: [sizeof(char * )], the allocator's answer to a request
    of [n] bytes, and the text [rpl_vsnprintf] prints for a null [%s]
    argument. *)
Variable sizeof_ptr : Z.
Variable alloc_ok : Z -> bool.
Variable null_text : string.

Definition fmt_s (prefix : string) (s : option string) : string :=
  (prefix ++ match s with Some s' => s' | None => null_text end)%string.

(** ** Caller memory threaded through the scanner *)

Definition call : Type := xoptOption * option string.

Record env : Type := {
  e_data : data;           (* *data *)
  e_calls : list call;     (* calls made to _xopt_set so far, oldest first *)
  e_err : option string    (* *err; None is the null pointer *)
}.

(** [_xopt_set_err]: formats into the static buffer and points [*err] at
    it; only the resulting contents are observable. [msg] is the whole
    formatted text, of which the buffer keeps the first [ERRBUF_SIZE - 1]
    characters. *)
Definition _xopt_set_err (e : env) (msg : string) : env :=
  {| e_data := e_data e; e_calls := e_calls e;
     e_err := Some (errbuf_cut msg) |}.

(** A call [_xopt_set(data, option, val, err)]. *)
Definition call_set (e : env) (o : xoptOption) (val : option string) : env :=
  let '(d, r) := _xopt_set (e_data e) o val in
  {| e_data := d;
     e_calls := (e_calls e ++ [(o, val)])%list;
     e_err := match r with Some m => Some m | None => e_err e end |}.

(** [argv[i]]; the element at [argc] is the closing null pointer. *)
Definition argv_at (argv : list string) (i : Z) : option string :=
  if i <? 0 then None else argv !! Z.to_nat i.

(** ** [_xopt_parse_arg] *)

(** The loop [while (length--) { ... }] of the "parse all" branch.
    [length] is the value tested by the loop condition, so the body runs
    with [length - 1]; [arg] is the pointer before [arg++]. The result is
    the final [*argi] and caller memory. *)
Fixpoint parse_all (ctx : xoptContext) (argc : Z) (argv : list string)
    (length : nat) (arg : string) (argi : Z) (e : env) : Z * env :=
  match length with
  | O => (argi, e)
  | S length' =>
      let '(requires, option) := _xopt_get_arg arg 1 (options ctx) 1 in
      let arg' := str_advance 1 arg in
      match option with
      | None =>
          (* break *)
          (argi,
           if has_flag ctx XOPT_CTX_STRICT
           then _xopt_set_err e (fmt_c "invalid argument: -" (char_at arg' 0))
           else e)
      | Some o =>
          if requires then
            if Nat.eqb length' 1 then
              if argc =? argi + 1 then
                parse_all ctx argc argv length' arg' (argi + 1)
                  (call_set e o (argv_at argv (argi + 1)))
              else
                parse_all ctx argc argv length' arg' argi
                  (_xopt_set_err e
                     (fmt_c "missing option value: -" (shortArg o)))
            else
              parse_all ctx argc argv length' arg' argi
                (_xopt_set_err e
                   (fmt_c "combined short option requiring value not last: -"
                      (shortArg o)))
          else
            parse_all ctx argc argv length' arg' argi (call_set e o None)
      end
  end.

(** The result is [(isExtra, *argi, caller memory)]. Dereferencing a null
    [argv[*argi]] in [_xopt_get_size] is undefined. *)
Definition _xopt_parse_arg (ctx : xoptContext) (argc : Z) (argv : list string)
    (argi : Z) (e : env) : outcome (bool * Z * env) :=
  match argv_at argv argi with
  | None => Undefined
  | Some arg0 =>
      let size := _xopt_get_size arg0 in
      let arg := str_advance (Z.to_nat size) arg0 in
      let length := strlen arg in
      if size =? 1 then
        if Nat.ltb 1 length && has_flag ctx XOPT_CTX_NOCONDENSE
           && negb (has_flag ctx XOPT_CTX_SLOPPYSHORTS) then
          Returns (false, argi,
                   _xopt_set_err e
                     (fmt_s "short options cannot be combined: " (Some arg0)))
        else if Nat.ltb 1 length && has_flag ctx XOPT_CTX_SLOPPYSHORTS then
          match snd (_xopt_get_arg arg 1 (options ctx) size) with
          | None =>
              Returns (false, argi,
                       if has_flag ctx XOPT_CTX_STRICT
                       then _xopt_set_err e
                              (fmt_c "invalid argument: -" (char_at arg 0))
                       else e)
          | Some o =>
              Returns (false, argi, call_set e o (Some (str_advance 1 arg)))
          end
        else
          let '(argi', e') := parse_all ctx argc argv length arg argi e in
          Returns (false, argi', e')
      else if size =? 2 then Returns (false, argi, e)
      else Returns (true, argi, e)
  end.

(** ** The extras buffer *)

(** A heap block of pointers: one entry per whole pointer that fits in the
    allocated bytes; [None] is a slot that holds no string. *)
Abbreviation block := (list (option string)).

Definition slots_of (bytes : Z) : nat := Z.to_nat (bytes / sizeof_ptr).

Definition malloc (bytes : Z) : option block :=
  if alloc_ok bytes then Some (replicate (slots_of bytes) None) else None.

(** [realloc] keeps the contents up to the smaller of the two sizes. *)
Definition realloc (b : block) (bytes : Z) : option block :=
  if alloc_ok bytes
  then Some (take (slots_of bytes) b
             ++ replicate (slots_of bytes - List.length b)%nat None)%list
  else None.

(** [b[i] = v]; a store outside the block is undefined. *)
Definition store (b : block) (i : Z) (v : option string) : outcome block :=
  if (0 <=? i) && (i <? Z.of_nat (List.length b))
  then Returns (<[Z.to_nat i := v]> b)
  else Undefined.

(** The local variables of [xopt_parse] and caller memory. *)
Record scan : Type := {
  argi : Z;
  extrasCount : Z;
  extrasCapac : Z;
  extras : option block;   (* None is the null pointer *)
  mem : env
}.

(** [_xopt_assert_increment(&extras, extrasCount, &extrasCapac, err)];
    note that [realloc] is asked for [*extrasCapac] bytes. *)
Definition _xopt_assert_increment (s : scan) : outcome scan :=
  if extrasCount s =? extrasCapac s then
    let capac := extrasCapac s + EXTRAS_INIT in
    match extras s with
    | None => Undefined
    | Some b =>
        match realloc b capac with
        | Some b' =>
            Returns {| argi := argi s; extrasCount := extrasCount s;
                       extrasCapac := capac; extras := Some b';
                       mem := mem s |}
        | None =>
            Returns {| argi := argi s; extrasCount := extrasCount s;
                       extrasCapac := capac; extras := None;
                       mem := _xopt_set_err (mem s)
                                "could not realloc arguments array" |}
        end
    end
  else Returns s.

(** ** [xopt_parse] *)

(** The loop [for (; argi < argc; argi++)]; it returns the locals at the
    label [end]. Every iteration advances [argi], so [argc - argi]
    iterations of fuel are enough (lemma [xopt_loop_fuel]). *)
Fixpoint xopt_loop (fuel : nat) (ctx : xoptContext) (argc : Z)
    (argv : list string) (s : scan) : outcome scan :=
  if argc <=? argi s then Returns s
  else
    match fuel with
    | O => OutOfFuel
    | S fuel' =>
        '(parseResult, argi', e') ← _xopt_parse_arg ctx argc argv (argi s) (mem s);
        let s1 := {| argi := argi'; extrasCount := extrasCount s;
                     extrasCapac := extrasCapac s; extras := extras s;
                     mem := e' |} in
        if bool_decide (is_Some (e_err e')) then Returns s1
        else if (parseResult : bool) then
          s2 ← _xopt_assert_increment s1;
          if bool_decide (is_Some (e_err (mem s2))) then Returns s2
          else
            match extras s2 with
            | None => Undefined
            | Some b =>
                b' ← store b (extrasCount s2) (argv_at argv (argi s2));
                xopt_loop fuel' ctx argc argv
                  {| argi := argi s2 + 1;
                     extrasCount := extrasCount s2 + 1;
                     extrasCapac := extrasCapac s2;
                     extras := Some b';
                     mem := mem s2 |}
            end
        else if has_flag ctx XOPT_CTX_POSIXMEHARDER
                && negb (extrasCount s1 =? 0) then
          Returns {| argi := argi s1; extrasCount := extrasCount s1;
                     extrasCapac := extrasCapac s1; extras := extras s1;
                     mem := _xopt_set_err (mem s1)
                              (fmt_s "options cannot be specified after arguments: "
                                 (argv_at argv (argi s1))) |}
        else
          xopt_loop fuel' ctx argc argv
            {| argi := argi s1 + 1; extrasCount := extrasCount s1;
               extrasCapac := extrasCapac s1; extras := extras s1;
               mem := mem s1 |}
    end.

(** What the caller observes: the returned [int], [*inextras] and caller
    memory ([*err], [*data] and the sink trace). *)
Record result : Type := {
  ret : Z;
  inextras : option block;
  out : env
}.

(** The code after the label [end]. *)
Definition xopt_end (s : scan) : result :=
  match e_err (mem s) with
  | Some _ => {| ret := 0; inextras := None; out := mem s |}
  | None => {| ret := extrasCount s; inextras := extras s; out := mem s |}
  end.

(** The scan from given locals to the return. *)
Definition xopt_run (ctx : xoptContext) (argc : Z) (argv : list string)
    (s : scan) : outcome result :=
  s' ← xopt_loop (Z.to_nat (argc - argi s)) ctx argc argv s;
  Returns (xopt_end s').

Definition xopt_parse (ctx : xoptContext) (argc : Z) (argv : list string)
    (d : data) : outcome result :=
  let e0 := {| e_data := d; e_calls := []; e_err := None |} in
  match malloc (sizeof_ptr * EXTRAS_INIT) with
  | None =>
      Returns (xopt_end {| argi := 0; extrasCount := 0;
                           extrasCapac := EXTRAS_INIT; extras := None;
                           mem := _xopt_set_err e0
                                    "could not allocate extras array" |})
  | Some b =>
      xopt_run ctx argc argv
        {| argi := if has_flag ctx XOPT_CTX_KEEPFIRST then 0 else 1;
           extrasCount := 0; extrasCapac := EXTRAS_INIT;
           extras := Some b; mem := e0 |}
  end.

(** The extras the caller can read: the first [ret] slots of [*inextras]. *)
Definition extras_of (r : result) : option (list (option string)) :=
  match inextras r with
  | Some b => Some (take (Z.to_nat (ret r)) b)
  | None => None
  end.

End Scanner.

Arguments e_data {data} e.
Arguments e_calls {data} e.
Arguments e_err {data} e.
Arguments argi {data} s.
Arguments extrasCount {data} s.
Arguments extrasCapac {data} s.
Arguments extras {data} s.
Arguments mem {data} s.
Arguments ret {data} r.
Arguments inextras {data} r.
Arguments out {data} r.
Arguments extras_of {data} r.
Arguments xopt_end {data} s.
Arguments store b i v : simpl never.

(** ** Sample tables and sinks used to run the scanner *)

Definition flag_opt (c : ascii) : xoptOption :=
  {| longArg := None; shortArg := c; requiresArg := false |}.

Definition value_opt (c : ascii) : xoptOption :=
  {| longArg := None; shortArg := c; requiresArg := true |}.

Definition mk_ctx (fl : Z) (tbl : list xoptOption) : xoptContext :=
  {| options := tbl; flags := fl; name := "prog" |}.

(** A sink that accepts everything and keeps nothing. *)
Definition accept_all (d : unit) (o : xoptOption) (v : option string)
    : unit * option string := (tt, None).

Definition always (n : Z) : bool := true.

(** A positional token: no leading dash. *)
Definition positional (tok : string) : Prop := char_at tok 0 <> "-"%char.

(** The two outcomes a caller can observe. On success [*err] is null, the
    count is nonnegative and [*inextras] is a block holding at least
    [count] pointers; on failure [*err] is set, [*inextras] is null and
    the count is 0. *)
Definition parse_success {data : Type} (r : result data) : Prop :=
  e_err (out r) = None /\ 0 <= ret r
  /\ exists b, inextras r = Some b /\ ret r <= Z.of_nat (List.length b).

Definition parse_failure {data : Type} (r : result data) : Prop :=
  (exists m, e_err (out r) = Some m) /\ inextras r = None /\ ret r = 0.

(** [positional] as a test, and the positional tokens of a list. *)
Definition is_positional (tok : string) : bool :=
  negb (Ascii.eqb (char_at tok 0) "-").

(** The number of leading dashes of a token. *)
Fixpoint leading_dashes (s : string) : nat :=
  match s with
  | String c s' => if Ascii.eqb c "-" then S (leading_dashes s') else O
  | EmptyString => O
  end.

(** Options first, positional tokens last. *)
Definition options_first (l : list string) : Prop :=
  exists opts poss,
    l = (opts ++ poss)%list
    /\ Forall (fun t => is_positional t = false) opts
    /\ Forall (fun t => is_positional t = true) poss.

(** The options a cluster payload expands to when it is made of flag
    characters: the walk ends at the end of the payload or at the first
    character with no option in the table; [None] when it meets an option
    that requires a value. *)
Fixpoint flag_run (opts : list xoptOption) (payload : string)
    : option (list xoptOption) :=
  match payload with
  | EmptyString => Some []
  | String c rest =>
      match find_short c opts with
      | None => Some []
      | Some o =>
          if requiresArg o then None
          else match flag_run opts rest with
               | Some os => Some (o :: os)
               | None => None
               end
      end
  end.

(** The elements [skip .. i-1] of the argument vector: what the scan has
    gone through when it stands at index [i], index 0 skipped or not. *)
Definition scanned (skip : nat) (argv : list string) (i : Z) : list string :=
  drop skip (take (Z.to_nat i) argv).

(** The extras buffer holds, in order, the positional tokens the scan has
    gone through. *)
Definition collected {data : Type} (skip : nat) (argv : list string)
    (s : scan data) : Prop :=
  Z.of_nat skip <= argi s
  /\ exists b c,
       extras s = Some b
       /\ extrasCount s = Z.of_nat c
       /\ (c <= List.length b)%nat
       /\ take c b = Some <$> List.filter is_positional (scanned skip argv (argi s)).

(** A sink that rejects everything with one message. *)
Definition reject_all (m : string) (d : unit) (o : xoptOption)
    (v : option string) : unit * option string := (tt, Some m).

(** An allocator that grants the initial block only. *)
Definition initial_only (n : Z) : bool := n =? 80.

(** ** Facts about classification and lookup *)

Lemma substring_whole n s :
  (String.length s <= n)%nat -> String.substring 0 n s = s.
Proof.
  revert n. induction s as [|c s IH]; intros n Hn.
  - destruct n; reflexivity.
  - destruct n as [|n]; cbn [String.length] in Hn; [lia |].
    cbn [String.substring]. rewrite IH by lia. reflexivity.
Qed.

(** A message that fits the error buffer is kept whole. *)
Lemma errbuf_cut_short msg :
  (String.length msg < Z.to_nat ERRBUF_SIZE)%nat -> errbuf_cut msg = msg.
Proof.
  intros H. unfold errbuf_cut. apply substring_whole.
  unfold ERRBUF_SIZE in *. lia.
Qed.

Lemma get_size_positional tok :
  char_at tok 0 <> "-"%char -> _xopt_get_size tok = 0.
Proof.
  intros H. unfold _xopt_get_size.
  destruct (Ascii.eqb_spec (char_at tok 0) "-"); [contradiction | reflexivity].
Qed.

Lemma get_size_short payload :
  char_at payload 0 <> "-"%char -> _xopt_get_size (String "-" payload) = 1.
Proof.
  intros H. unfold _xopt_get_size. cbn [char_at String.get Ascii.eqb negb].
  change (char_at (String "-" payload) 1) with (char_at payload 0).
  cbn. destruct (Ascii.eqb_spec (char_at payload 0) "-"); [contradiction | reflexivity].
Qed.

Lemma get_size_long s : _xopt_get_size (String "-" (String "-" s)) = 2.
Proof. reflexivity. Qed.

Lemma get_size_range arg : 0 <= _xopt_get_size arg <= 2.
Proof.
  unfold _xopt_get_size.
  destruct (negb _); [lia |]. destruct (negb _); lia.
Qed.

Lemma get_arg_short c rest tbl :
  _xopt_get_arg (String c rest) 1 tbl 1
  = match find_short c tbl with
    | Some o => (requiresArg o, Some o)
    | None => (false, None)
    end.
Proof. reflexivity. Qed.

Lemma find_short_matches c tbl o :
  find_short c tbl = Some o -> shortArg o = c.
Proof.
  induction tbl as [|o' tbl IH]; cbn; [discriminate |].
  destruct (Ascii.eqb_spec (shortArg o') c); [intros [= <-]; assumption | exact IH].
Qed.

Section ScannerFacts.

Variable data : Type.
Variable _xopt_set : data -> xoptOption -> option string -> data * option string.
Variable sizeof_ptr : Z.
Variable alloc_ok : Z -> bool.
Variable null_text : string.

Local Abbreviation env := (env data).
Local Abbreviation scan := (scan data).
Local Abbreviation result := (result data).
Local Abbreviation do_set := (call_set data _xopt_set).
Local Abbreviation set_err := (_xopt_set_err data).
Local Abbreviation expand := (parse_all data _xopt_set).
Local Abbreviation parse_arg := (_xopt_parse_arg data _xopt_set null_text).
Local Abbreviation assert_increment :=
  (_xopt_assert_increment data sizeof_ptr alloc_ok).
Local Abbreviation loop := (xopt_loop data _xopt_set sizeof_ptr alloc_ok null_text).
Local Abbreviation run := (xopt_run data _xopt_set sizeof_ptr alloc_ok null_text).
Local Abbreviation parse := (xopt_parse data _xopt_set sizeof_ptr alloc_ok null_text).

Implicit Types (ctx : xoptContext) (argv : list string) (e : env) (s : scan).

(** *** The sink trace *)

Lemma call_set_calls e o v :
  e_calls (do_set e o v) = (e_calls e ++ [(o, v)])%list.
Proof. unfold call_set. destruct (_xopt_set _ _ _). reflexivity. Qed.

Lemma call_set_data e o v :
  e_data (do_set e o v) = fst (_xopt_set (e_data e) o v).
Proof. unfold call_set. destruct (_xopt_set _ _ _). reflexivity. Qed.

Lemma call_set_err e o v :
  e_err (do_set e o v)
  = match snd (_xopt_set (e_data e) o v) with
    | Some m => Some m
    | None => e_err e
    end.
Proof. unfold call_set. destruct (_xopt_set _ _ _). reflexivity. Qed.

(** *** One token *)

Lemma parse_arg_positional ctx argc argv i e tok :
  argv_at argv i = Some tok ->
  char_at tok 0 <> "-"%char ->
  parse_arg ctx argc argv i e = Returns (true, i, e).
Proof.
  intros Hat Htok. unfold _xopt_parse_arg. rewrite Hat.
  rewrite (get_size_positional _ Htok). reflexivity.
Qed.

Lemma parse_arg_long ctx argc argv i e rest :
  argv_at argv i = Some (String "-" (String "-" rest)) ->
  parse_arg ctx argc argv i e = Returns (false, i, e).
Proof.
  intros Hat. unfold _xopt_parse_arg. rewrite Hat, get_size_long. reflexivity.
Qed.

Lemma parse_arg_short ctx argc argv i e payload :
  argv_at argv i = Some (String "-" payload) ->
  char_at payload 0 <> "-"%char ->
  parse_arg ctx argc argv i e
  = if Nat.ltb 1 (strlen payload) && has_flag ctx XOPT_CTX_NOCONDENSE
       && negb (has_flag ctx XOPT_CTX_SLOPPYSHORTS)
    then Returns (false, i,
                  set_err e (fmt_s null_text "short options cannot be combined: "
                               (Some (String "-" payload))))
    else if Nat.ltb 1 (strlen payload) && has_flag ctx XOPT_CTX_SLOPPYSHORTS
    then match snd (_xopt_get_arg payload 1 (options ctx) 1) with
         | None =>
             Returns (false, i,
                      if has_flag ctx XOPT_CTX_STRICT
                      then set_err e (fmt_c "invalid argument: -"
                                        (char_at payload 0))
                      else e)
         | Some o =>
             Returns (false, i, do_set e o (Some (str_advance 1 payload)))
         end
    else let '(i', e') := expand ctx argc argv (strlen payload) payload i e in
         Returns (false, i', e').
Proof.
  intros Hat Hpay. unfold _xopt_parse_arg. rewrite Hat.
  rewrite (get_size_short _ Hpay). reflexivity.
Qed.

(** A lone flag option [-x]. *)
Lemma parse_arg_single_flag ctx argc argv i e x o :
  argv_at argv i = Some (String "-" (String x "")) ->
  x <> "-"%char ->
  find_short x (options ctx) = Some o ->
  requiresArg o = false ->
  parse_arg ctx argc argv i e = Returns (false, i, do_set e o None).
Proof.
  intros Hat Hx Hfind Hreq.
  rewrite (parse_arg_short _ _ _ _ _ _ Hat) by exact Hx.
  cbn [strlen String.length Nat.ltb Nat.leb andb].
  cbn [parse_all]. rewrite get_arg_short, Hfind, Hreq. reflexivity.
Qed.

(** *** One iteration of the scan *)

Lemma loop_exit fuel ctx argc argv s :
  argc <= argi s -> loop fuel ctx argc argv s = Returns s.
Proof.
  intros H. destruct fuel; cbn [xopt_loop];
    destruct (Z.leb_spec argc (argi s)); try lia; reflexivity.
Qed.

Lemma loop_step_error fuel ctx argc argv s isx i' e' m :
  argi s < argc ->
  parse_arg ctx argc argv (argi s) (mem s) = Returns (isx, i', e') ->
  e_err e' = Some m ->
  loop (S fuel) ctx argc argv s
  = Returns {| argi := i'; extrasCount := extrasCount s;
               extrasCapac := extrasCapac s; extras := extras s;
               mem := e' |}.
Proof.
  intros Hlt Hparse Herr. cbn [xopt_loop].
  destruct (Z.leb_spec argc (argi s)); [lia |].
  rewrite Hparse. cbn [mbind outcome_bind]. rewrite Herr.
  rewrite bool_decide_eq_true_2 by eauto. reflexivity.
Qed.

Lemma loop_step_option fuel ctx argc argv s i' e' :
  argi s < argc ->
  parse_arg ctx argc argv (argi s) (mem s) = Returns (false, i', e') ->
  e_err e' = None ->
  has_flag ctx XOPT_CTX_POSIXMEHARDER && negb (extrasCount s =? 0) = false ->
  loop (S fuel) ctx argc argv s
  = loop fuel ctx argc argv
      {| argi := i' + 1; extrasCount := extrasCount s;
         extrasCapac := extrasCapac s; extras := extras s;
         mem := e' |}.
Proof.
  intros Hlt Hparse Herr Hposix. cbn [xopt_loop].
  destruct (Z.leb_spec argc (argi s)); [lia |].
  rewrite Hparse. cbn [mbind outcome_bind]. rewrite Herr.
  rewrite bool_decide_eq_false_2 by (intros [? ?]; discriminate).
  cbn [extrasCount argi extrasCapac extras mem]. rewrite Hposix. reflexivity.
Qed.

Lemma loop_step_posix fuel ctx argc argv s i' e' :
  argi s < argc ->
  parse_arg ctx argc argv (argi s) (mem s) = Returns (false, i', e') ->
  e_err e' = None ->
  has_flag ctx XOPT_CTX_POSIXMEHARDER = true ->
  extrasCount s <> 0 ->
  loop (S fuel) ctx argc argv s
  = Returns {| argi := i'; extrasCount := extrasCount s;
               extrasCapac := extrasCapac s; extras := extras s;
               mem := set_err e'
                        (fmt_s null_text
                           "options cannot be specified after arguments: "
                           (argv_at argv i')) |}.
Proof.
  intros Hlt Hparse Herr Hposix Hcount. cbn [xopt_loop].
  destruct (Z.leb_spec argc (argi s)); [lia |].
  rewrite Hparse. cbn [mbind outcome_bind]. rewrite Herr.
  rewrite bool_decide_eq_false_2 by (intros [? ?]; discriminate).
  cbn [extrasCount argi extrasCapac extras mem]. rewrite Hposix.
  destruct (Z.eqb_spec (extrasCount s) 0); [contradiction | reflexivity].
Qed.

(** A positional token while the buffer still has room. *)
Lemma loop_step_extra fuel ctx argc argv s tok b :
  argi s < argc ->
  argv_at argv (argi s) = Some tok ->
  char_at tok 0 <> "-"%char ->
  e_err (mem s) = None ->
  extras s = Some b ->
  extrasCount s <> extrasCapac s ->
  0 <= extrasCount s < Z.of_nat (List.length b) ->
  loop (S fuel) ctx argc argv s
  = loop fuel ctx argc argv
      {| argi := argi s + 1; extrasCount := extrasCount s + 1;
         extrasCapac := extrasCapac s;
         extras := Some (<[Z.to_nat (extrasCount s) := Some tok]> b);
         mem := mem s |}.
Proof.
  intros Hlt Hat Htok Herr Hb Hroom Hin. cbn [xopt_loop].
  destruct (Z.leb_spec argc (argi s)); [lia |].
  rewrite (parse_arg_positional _ _ _ _ _ _ Hat Htok).
  cbn [mbind outcome_bind]. rewrite Herr.
  rewrite bool_decide_eq_false_2 by (intros [? ?]; discriminate).
  unfold _xopt_assert_increment. cbn [extrasCount argi extrasCapac extras mem].
  destruct (Z.eqb_spec (extrasCount s) (extrasCapac s)); [contradiction |].
  cbn [mbind outcome_bind extrasCount argi extrasCapac extras mem].
  rewrite Herr.
  rewrite bool_decide_eq_false_2 by (intros [? ?]; discriminate).
  rewrite Hb, Hat. unfold store.
  destruct (Z.leb_spec 0 (extrasCount s)); [| lia].
  destruct (Z.ltb_spec (extrasCount s) (Z.of_nat (List.length b))); [| lia].
  reflexivity.
Qed.


(** *** Entering and leaving the scan *)

Lemma run_unfold ctx argc argv s n :
  Z.to_nat (argc - argi s) = n ->
  run ctx argc argv s = s' ← loop n ctx argc argv s; Returns (xopt_end s').
Proof. intros <-. reflexivity. Qed.

Lemma run_positive ctx argc argv s :
  argi s < argc ->
  exists fuel, Z.to_nat (argc - argi s) = S fuel.
Proof. intros H. exists (Z.to_nat (argc - argi s - 1)). lia. Qed.

Lemma slots_of_init :
  0 < sizeof_ptr ->
  slots_of sizeof_ptr (sizeof_ptr * EXTRAS_INIT) = Z.to_nat EXTRAS_INIT.
Proof.
  intros H. unfold slots_of. f_equal.
  rewrite Z.mul_comm. apply Z.div_mul. lia.
Qed.

Lemma parse_unfold ctx argc argv d :
  0 < sizeof_ptr ->
  alloc_ok (sizeof_ptr * EXTRAS_INIT) = true ->
  parse ctx argc argv d
  = run ctx argc argv
      {| argi := if has_flag ctx XOPT_CTX_KEEPFIRST then 0 else 1;
         extrasCount := 0; extrasCapac := EXTRAS_INIT;
         extras := Some (replicate (Z.to_nat EXTRAS_INIT) None);
         mem := {| e_data := d; e_calls := []; e_err := None |} |}.
Proof.
  intros Hp Hok. unfold xopt_parse, malloc. rewrite Hok.
  rewrite (slots_of_init Hp). reflexivity.
Qed.

(** ** The claims the scanner meets *)

(** C6: a short-form token whose cluster payload has more than one
    character is rejected when no-combine is set and sloppy is unset:
    whatever the locals when the scan reaches it, parse returns failure
    with the message "short options cannot be combined: <token>", as much
    of it as the error buffer holds (all of it for a payload of at most
    4060 characters), and caller memory is otherwise untouched: the sink
    is not called for the token. *)
Theorem no_combine_rejects_cluster ctx argc argv s payload :
  argi s < argc ->
  argv_at argv (argi s) = Some (String "-" payload) ->
  char_at payload 0 <> "-"%char ->
  (1 < strlen payload)%nat ->
  has_flag ctx XOPT_CTX_NOCONDENSE = true ->
  has_flag ctx XOPT_CTX_SLOPPYSHORTS = false ->
  let msg := ("short options cannot be combined: " ++ String "-" payload)%string in
  run ctx argc argv s
  = Returns
      {| ret := 0; inextras := None;
         out := {| e_data := e_data (mem s);
                   e_calls := e_calls (mem s);
                   e_err := Some (errbuf_cut msg) |} |}
  /\ ((strlen payload <= 4060)%nat -> errbuf_cut msg = msg).
Proof.
  intros Hlt Hat Hpay Hlen Hnc Hsl msg. split.
  - destruct (run_positive ctx argc argv s Hlt) as [fuel Hfuel].
    rewrite (run_unfold _ _ _ _ _ Hfuel).
    assert (Hparse : parse_arg ctx argc argv (argi s) (mem s)
                     = Returns (false, argi s,
                                set_err (mem s)
                                  (fmt_s null_text "short options cannot be combined: "
                                     (Some (String "-" payload))))).
    { rewrite (parse_arg_short _ _ _ _ _ _ Hat Hpay), Hnc, Hsl.
      apply Nat.ltb_lt in Hlen. rewrite Hlen. reflexivity. }
    rewrite (loop_step_error fuel _ _ _ _ _ _ _ _ Hlt Hparse eq_refl).
    reflexivity.
  - intros Hfit. apply errbuf_cut_short. subst msg.
    cbn [append String.length]. unfold strlen, ERRBUF_SIZE in *. lia.
Qed.


(** C10: a token with two leading dashes is consumed with no effect. The
    scanner returns "not an extra" for it with the scan position and
    caller memory unchanged (no sink call, no error); the scan then either
    moves to the next element with the extras untouched or, when
    posix-strict-ordering is set and an extra has been collected, stops
    with "options cannot be specified after arguments: <token>", as much
    of it as the error buffer holds (all of it when at most 4048
    characters follow the two dashes). *)
Theorem long_token_is_inert ctx argc argv s rest fuel :
  argi s < argc ->
  argv_at argv (argi s) = Some (String "-" (String "-" rest)) ->
  e_err (mem s) = None ->
  let msg := ("options cannot be specified after arguments: "
              ++ String "-" (String "-" rest))%string in
  parse_arg ctx argc argv (argi s) (mem s) = Returns (false, argi s, mem s)
  /\ (has_flag ctx XOPT_CTX_POSIXMEHARDER && negb (extrasCount s =? 0) = false ->
      loop (S fuel) ctx argc argv s
      = loop fuel ctx argc argv
          {| argi := argi s + 1; extrasCount := extrasCount s;
             extrasCapac := extrasCapac s; extras := extras s;
             mem := mem s |})
  /\ (has_flag ctx XOPT_CTX_POSIXMEHARDER = true ->
      extrasCount s <> 0 ->
      run ctx argc argv s
      = Returns
          {| ret := 0; inextras := None;
             out := {| e_data := e_data (mem s);
                       e_calls := e_calls (mem s);
                       e_err := Some (errbuf_cut msg) |} |})
  /\ ((strlen rest <= 4048)%nat -> errbuf_cut msg = msg).
Proof.
  intros Hlt Hat Herr msg.
  pose proof (parse_arg_long ctx argc argv (argi s) (mem s) rest Hat) as Hparse.
  split; [exact Hparse |]. split; [| split].
  - intros Hposix. apply loop_step_option; assumption.
  - intros Hposix Hcount.
    destruct (run_positive ctx argc argv s Hlt) as [n Hn].
    rewrite (run_unfold _ _ _ _ _ Hn).
    rewrite (loop_step_posix n ctx argc argv s _ _ Hlt Hparse Herr Hposix Hcount).
    cbn [mbind outcome_bind]. unfold xopt_end.
    cbn [mem e_err _xopt_set_err]. rewrite Hat. reflexivity.
  - intros Hfit. apply errbuf_cut_short. subst msg.
    cbn [append String.length]. unfold strlen, ERRBUF_SIZE in *. lia.
Qed.

(** C4: on an argument vector [prog; file; -x], where [file] is
    positional and [x] is a flag option the sink accepts, with index 0
    skipped: under posix-strict-ordering parse fails with "options cannot
    be specified after arguments: -x"; without that flag it succeeds,
    returns the single extra [file] and has called the sink for [x] with
    the absent value. *)
Theorem posix_ordering_after_positional ctx prog file x o d :
  0 < sizeof_ptr ->
  alloc_ok (sizeof_ptr * EXTRAS_INIT) = true ->
  has_flag ctx XOPT_CTX_KEEPFIRST = false ->
  char_at file 0 <> "-"%char ->
  x <> "-"%char ->
  find_short x (options ctx) = Some o ->
  requiresArg o = false ->
  snd (_xopt_set d o None) = None ->
  let argv := [prog; file; String "-" (String x "")] in
  let after := {| e_data := fst (_xopt_set d o None);
                  e_calls := [(o, None)]; e_err := None |} in
  (has_flag ctx XOPT_CTX_POSIXMEHARDER = true ->
   parse ctx 3 argv d
   = Returns {| ret := 0; inextras := None;
                out := set_err after
                         ("options cannot be specified after arguments: "
                          ++ String "-" (String x ""))%string |})
  /\ (has_flag ctx XOPT_CTX_POSIXMEHARDER = false ->
      exists r,
        parse ctx 3 argv d = Returns r
        /\ ret r = 1
        /\ extras_of r = Some [Some file]
        /\ out r = after).
Proof.
  intros Hp Hok Hkeep Hfile Hx Hfind Hreq Hacc argv after.
  set (e0 := {| e_data := d; e_calls := []; e_err := None |}).
  assert (Hopt : forall argc, parse_arg ctx argc argv 2 e0 = Returns (false, 2, after)).
  { intros argc.
    rewrite (parse_arg_single_flag ctx argc argv 2 e0 x o eq_refl Hx Hfind Hreq).
    unfold call_set, after. cbn [e_data e_calls e_err e0].
    destruct (_xopt_set d o None) as [d' r']. cbn in Hacc. subst r'. reflexivity. }
  rewrite (parse_unfold _ _ _ _ Hp Hok), Hkeep.
  rewrite (run_unfold _ _ _ _ 2) by reflexivity.
  rewrite (loop_step_extra 1 ctx 3 argv _ file (replicate (Z.to_nat EXTRAS_INIT) None));
    cbn [argi extrasCount extrasCapac extras mem];
    [ | lia | reflexivity | assumption | reflexivity | reflexivity
      | discriminate | rewrite length_replicate; vm_compute; intuition discriminate ].
  cbn [argi extrasCount extrasCapac extras mem].
  change (0 + 1) with 1. change (1 + 1) with 2.
  split.
  - intros Hposix.
    rewrite (loop_step_posix 0 ctx 3 argv _ 2 after) by
      (cbn [argi extrasCount extrasCapac extras mem];
       first [lia | apply Hopt | reflexivity | assumption]).
    reflexivity.
  - intros Hposix.
    rewrite (loop_step_option 0 ctx 3 argv _ 2 after) by
      (cbn [argi extrasCount extrasCapac extras mem];
       first [lia | apply Hopt | reflexivity | rewrite Hposix; reflexivity]).
    rewrite loop_exit by (cbn; lia).
    eexists. split; [reflexivity |]. repeat split.
Qed.


(** *** Progress of the scan position *)

Lemma parse_all_argi ctx argc argv n arg i e :
  i <= fst (expand ctx argc argv n arg i e).
Proof.
  revert arg i e. induction n as [|n IH]; intros arg i e; cbn [parse_all].
  - cbn. lia.
  - destruct (_xopt_get_arg arg 1 (options ctx) 1) as [requires [o|]].
    + destruct requires.
      * destruct (Nat.eqb n 1).
        -- destruct (argc =? i + 1).
           ++ etransitivity; [| apply IH]. lia.
           ++ apply IH.
        -- apply IH.
      * apply IH.
    + cbn. lia.
Qed.

Lemma parse_arg_returns ctx argc argv i e tok :
  argv_at argv i = Some tok ->
  exists isx i' e',
    parse_arg ctx argc argv i e = Returns (isx, i', e')
    /\ i <= i' /\ (isx = true -> i' = i /\ e' = e).
Proof.
  intros Hat. unfold _xopt_parse_arg. rewrite Hat.
  destruct (_xopt_get_size tok =? 1).
  - destruct (_ && _ && _); [do 3 eexists; split; [reflexivity | split; [lia | discriminate]] |].
    destruct (_ && _).
    + destruct (snd _); do 3 eexists; (split; [reflexivity | split; [lia | discriminate]]).
    + pose proof (parse_all_argi ctx argc argv
                    (strlen (str_advance (Z.to_nat (_xopt_get_size tok)) tok))
                    (str_advance (Z.to_nat (_xopt_get_size tok)) tok) i e) as Hmono.
      destruct (expand _ _ _ _ _ _ _) as [i' e']. cbn in Hmono.
      do 3 eexists; split; [reflexivity | split; [exact Hmono | discriminate]].
  - destruct (_xopt_get_size tok =? 2);
      do 3 eexists; (split; [reflexivity | split; [lia | ]]);
      [discriminate | intros _; split; reflexivity].
Qed.

Lemma parse_arg_argi ctx argc argv i e isx i' e' :
  parse_arg ctx argc argv i e = Returns (isx, i', e') -> i <= i'.
Proof.
  intros H. destruct (argv_at argv i) as [tok|] eqn:Hat.
  - destruct (parse_arg_returns ctx argc argv i e tok Hat)
      as (isx0 & i0 & e0 & Heq & Hle & _).
    rewrite Heq in H. injection H as -> -> ->. exact Hle.
  - unfold _xopt_parse_arg in H. rewrite Hat in H. discriminate.
Qed.

Lemma assert_increment_cases s :
  assert_increment s = Undefined
  \/ exists s2,
       assert_increment s = Returns s2
       /\ argi s2 = argi s /\ extrasCount s2 = extrasCount s
       /\ (e_err (mem s2) = None ->
           mem s2 = mem s
           /\ ((extrasCount s <> extrasCapac s /\ s2 = s)
               \/ (extrasCount s = extrasCapac s
                   /\ exists b b', extras s = Some b
                        /\ realloc sizeof_ptr alloc_ok b
                             (extrasCapac s + EXTRAS_INIT) = Some b'
                        /\ extras s2 = Some b'))).
Proof.
  unfold _xopt_assert_increment.
  destruct (Z.eqb_spec (extrasCount s) (extrasCapac s)) as [Heq|Hne].
  - destruct (extras s) as [b|]; [| left; reflexivity].
    destruct (realloc sizeof_ptr alloc_ok b (extrasCapac s + EXTRAS_INIT)) as [b'|] eqn:Hre.
    + right. eexists. split; [reflexivity |].
      cbn [argi extrasCount mem extras].
      split; [reflexivity |]. split; [reflexivity |]. intros _.
      split; [reflexivity |]. right. split; [exact Heq |].
      exists b, b'. split; [reflexivity | split; [exact Hre | reflexivity]].
    + right. eexists. split; [reflexivity |].
      cbn [argi extrasCount mem extras e_err _xopt_set_err].
      split; [reflexivity |]. split; [reflexivity |]. discriminate.
  - right. exists s. split; [reflexivity |].
    split; [reflexivity |]. split; [reflexivity |]. intros _.
    split; [reflexivity |]. left. split; [exact Hne | reflexivity].
Qed.

(** The body of the loop, once the guard [argi < argc] holds. *)
Lemma loop_S fuel ctx argc argv s :
  argi s < argc ->
  loop (S fuel) ctx argc argv s
  = '(parseResult, argi', e') ← parse_arg ctx argc argv (argi s) (mem s);
    let s1 := {| argi := argi'; extrasCount := extrasCount s;
                 extrasCapac := extrasCapac s; extras := extras s;
                 mem := e' |} in
    if bool_decide (is_Some (e_err e')) then Returns s1
    else if (parseResult : bool) then
      s2 ← assert_increment s1;
      if bool_decide (is_Some (e_err (mem s2))) then Returns s2
      else
        match extras s2 with
        | None => Undefined
        | Some b =>
            b' ← store b (extrasCount s2) (argv_at argv (argi s2));
            loop fuel ctx argc argv
              {| argi := argi s2 + 1;
                 extrasCount := extrasCount s2 + 1;
                 extrasCapac := extrasCapac s2;
                 extras := Some b';
                 mem := mem s2 |}
        end
    else if has_flag ctx XOPT_CTX_POSIXMEHARDER
            && negb (extrasCount s1 =? 0) then
      Returns {| argi := argi s1; extrasCount := extrasCount s1;
                 extrasCapac := extrasCapac s1; extras := extras s1;
                 mem := set_err (mem s1)
                          (fmt_s null_text
                             "options cannot be specified after arguments: "
                             (argv_at argv (argi s1))) |}
    else
      loop fuel ctx argc argv
        {| argi := argi s1 + 1; extrasCount := extrasCount s1;
           extrasCapac := extrasCapac s1; extras := extras s1;
           mem := mem s1 |}.
Proof.
  intros Hlt. cbn [xopt_loop].
  destruct (Z.leb_spec argc (argi s)); [lia | reflexivity].
Qed.

(** The fuel [argc - argi] is never exhausted. *)
Lemma xopt_loop_fuel ctx argc argv fuel s :
  (Z.to_nat (argc - argi s) <= fuel)%nat ->
  loop fuel ctx argc argv s <> OutOfFuel.
Proof.
  revert s. induction fuel as [|fuel IH]; intros s Hfuel.
  - rewrite loop_exit by lia. discriminate.
  - destruct (Z.le_gt_cases argc (argi s)) as [Hge|Hlt].
    { rewrite loop_exit by lia. discriminate. }
    rewrite loop_S by lia.
    destruct (parse_arg ctx argc argv (argi s) (mem s)) as [[[isx i'] e']| |] eqn:Hparse;
      cbn [mbind outcome_bind]; try discriminate.
    + apply parse_arg_argi in Hparse.
      destruct (bool_decide _); [discriminate |].
      destruct isx.
      * match goal with |- context [assert_increment ?s1] =>
          destruct (assert_increment_cases s1) as [->|(s2 & -> & Hi & _)] end;
          cbn [mbind outcome_bind]; [discriminate |].
        destruct (bool_decide _); [discriminate |].
        destruct (extras s2); [| discriminate].
        destruct (store _ _ _) eqn:Hst; cbn [mbind outcome_bind]; try discriminate.
        -- apply IH. cbn [argi] in *. lia.
        -- unfold store in Hst. destruct (_ && _); discriminate.
      * destruct (_ && _); [discriminate |].
        apply IH. cbn [argi]. lia.
    + unfold _xopt_parse_arg in Hparse.
      destruct (argv_at argv (argi s)); [| discriminate].
      repeat match type of Hparse with
             | (if ?c then _ else _) = _ => destruct c
             | (match ?c with _ => _ end) = _ => destruct c
             end; discriminate.
Qed.


(** *** The extras block between iterations *)

Lemma store_returns b i v b' :
  store b i v = Returns b' ->
  0 <= i < Z.of_nat (List.length b) /\ b' = <[Z.to_nat i := v]> b.
Proof.
  unfold store. intros H.
  destruct (Z.leb_spec 0 i); [| discriminate].
  destruct (Z.ltb_spec i (Z.of_nat (List.length b))); [| discriminate].
  cbn in H. injection H as <-. split; [lia | reflexivity].
Qed.

Lemma not_is_Some_None {A : Type} (o : option A) : ~ is_Some o -> o = None.
Proof. destruct o; [intros H; exfalso; apply H; eauto | reflexivity]. Qed.

Lemma loop_extras_owned ctx argc argv fuel s s' :
  e_err (mem s) = None ->
  0 <= extrasCount s ->
  (exists b, extras s = Some b /\ extrasCount s <= Z.of_nat (List.length b)) ->
  loop fuel ctx argc argv s = Returns s' ->
  0 <= extrasCount s'
  /\ (e_err (mem s') = None ->
      exists b, extras s' = Some b
                /\ extrasCount s' <= Z.of_nat (List.length b)).
Proof.
  revert s. induction fuel as [|fuel IH]; intros s Herr Hcount Hblock Hloop.
  - cbn [xopt_loop] in Hloop. destruct (argc <=? argi s); [| discriminate].
    injection Hloop as <-. split; [assumption | intros _; assumption].
  - destruct (Z.le_gt_cases argc (argi s)) as [Hge|Hlt].
    { rewrite loop_exit in Hloop by lia. injection Hloop as <-.
      split; [assumption | intros _; assumption]. }
    rewrite loop_S in Hloop by lia.
    destruct (parse_arg ctx argc argv (argi s) (mem s)) as [[[isx i'] e']| |];
      cbn [mbind outcome_bind] in Hloop; try discriminate.
    case_bool_decide as He'.
    { injection Hloop as <-. cbn [extrasCount mem extras].
      split; [assumption |]. intros Hnone. rewrite Hnone in He'.
      destruct He' as [? ?]; discriminate. }
    apply not_is_Some_None in He'.
    destruct isx.
    + match type of Hloop with context [assert_increment ?s1] =>
        destruct (assert_increment_cases s1) as [Hinc|(s2 & Hinc & Hi & Hc & Hmem)] end;
        rewrite Hinc in Hloop; cbn [mbind outcome_bind] in Hloop; [discriminate |].
      cbn [argi extrasCount mem extras extrasCapac] in Hi, Hc, Hmem.
      case_bool_decide as He2.
      { injection Hloop as <-. rewrite Hc. split; [assumption |].
        intros Hnone. rewrite Hnone in He2. destruct He2 as [? ?]; discriminate. }
      apply not_is_Some_None in He2.
      destruct (extras s2) as [b2|]; [| discriminate].
      destruct (store b2 (extrasCount s2) (argv_at argv (argi s2))) as [b'| |] eqn:Hst;
        cbn [mbind outcome_bind] in Hloop; try discriminate.
      apply store_returns in Hst. destruct Hst as [Hin ->].
      eapply IH; [| | | exact Hloop]; cbn [extras extrasCount mem].
      * exact He2.
      * lia.
      * eexists. split; [reflexivity |]. rewrite length_insert. lia.
    + destruct (_ && _).
      * injection Hloop as <-. cbn [extrasCount mem extras e_err _xopt_set_err].
        split; [assumption | discriminate].
      * eapply IH; [| | | exact Hloop]; cbn [extras extrasCount mem]; assumption.
Qed.


Lemma argv_at_in_range argv i :
  0 <= i < Z.of_nat (List.length argv) -> exists tok, argv_at argv i = Some tok.
Proof.
  intros H. unfold argv_at. destruct (Z.ltb_spec i 0); [lia |].
  destruct (lookup_lt_is_Some_2 argv (Z.to_nat i)) as [tok Htok]; [lia |].
  exists tok. exact Htok.
Qed.

(** While the argument vector has at most [EXTRAS_INIT] elements the
    buffer never grows and every store is in bounds. *)
Lemma loop_defined_small ctx argv fuel s b :
  Z.of_nat (List.length argv) <= EXTRAS_INIT ->
  0 <= extrasCount s <= argi s ->
  extrasCapac s = EXTRAS_INIT ->
  extras s = Some b ->
  List.length b = Z.to_nat EXTRAS_INIT ->
  e_err (mem s) = None ->
  (Z.to_nat (Z.of_nat (List.length argv) - argi s) <= fuel)%nat ->
  exists s', loop fuel ctx (Z.of_nat (List.length argv)) argv s = Returns s'.
Proof.
  intros Hsmall. revert s b.
  induction fuel as [|fuel IH]; intros s b Hcount Hcapac Hb Hlen Herr Hfuel.
  - exists s. apply loop_exit. lia.
  - destruct (Z.le_gt_cases (Z.of_nat (List.length argv)) (argi s)) as [Hge|Hlt].
    { exists s. apply loop_exit. lia. }
    destruct (argv_at_in_range argv (argi s)) as [tok Hat]; [lia |].
    destruct (parse_arg_returns ctx (Z.of_nat (List.length argv)) argv (argi s) (mem s) tok Hat)
      as (isx & i' & e' & Hparse & Hle & Hextra).
    rewrite loop_S by lia. rewrite Hparse. cbn [mbind outcome_bind].
    case_bool_decide as He'; [eexists; reflexivity |].
    apply not_is_Some_None in He'.
    destruct isx.
    + destruct Hextra as [-> ->]; [reflexivity |].
      unfold _xopt_assert_increment. cbn [argi extrasCount extrasCapac extras mem].
      destruct (Z.eqb_spec (extrasCount s) (extrasCapac s)); [unfold EXTRAS_INIT in *; lia |].
      cbn [mbind outcome_bind argi extrasCount extrasCapac extras mem].
      rewrite Herr.
      rewrite bool_decide_eq_false_2 by (intros [? ?]; discriminate).
      rewrite Hb. unfold store.
      destruct (Z.leb_spec 0 (extrasCount s)); [| lia].
      destruct (Z.ltb_spec (extrasCount s) (Z.of_nat (List.length b)));
        [| unfold EXTRAS_INIT in *; lia].
      cbn [andb mbind outcome_bind].
      eapply IH; cbn [argi extrasCount extrasCapac extras mem];
        [lia | assumption | reflexivity | | assumption | lia].
      rewrite length_insert. exact Hlen.
    + destruct (_ && _); [eexists; reflexivity |].
      eapply IH; cbn [argi extrasCount extrasCapac extras mem];
        [lia | assumption | eassumption | assumption | assumption | lia].
Qed.

Lemma xopt_end_outcome s :
  0 <= extrasCount s ->
  (e_err (mem s) = None ->
   exists b, extras s = Some b /\ extrasCount s <= Z.of_nat (List.length b)) ->
  (parse_success (xopt_end s) /\ ~ parse_failure (xopt_end s))
  \/ (parse_failure (xopt_end s) /\ ~ parse_success (xopt_end s)).
Proof.
  intros Hcount Hblock. unfold xopt_end.
  destruct (e_err (mem s)) as [m|] eqn:Herr.
  - right. split.
    + split; [exists m; exact Herr | split; reflexivity].
    + intros [Hnone _]. cbn in Hnone. congruence.
  - left. destruct (Hblock eq_refl) as (b & Hb & Hle). split.
    + split; [exact Herr | split; [exact Hcount | exists b; split; assumption]].
    + intros [[m Hm] _]. cbn in Hm. congruence.
Qed.

(** X13: the two outcomes of a returning parse call. The scan always
    terminates; on an argument vector of at most [EXTRAS_INIT] elements
    it returns; and whenever it returns, the caller sees exactly one of a
    success (null [*err], nonnegative count, a block holding the extras)
    and a failure (an error message, null [*inextras], count 0). Once
    [_xopt_parse_arg] comes back with an error for a token, no later
    element is scanned. *)
Theorem parse_outcome_exclusive ctx argc argv d :
  parse ctx argc argv d <> OutOfFuel
  /\ (0 < sizeof_ptr ->
      argc = Z.of_nat (List.length argv) ->
      argc <= EXTRAS_INIT ->
      exists r, parse ctx argc argv d = Returns r)
  /\ (forall r,
        parse ctx argc argv d = Returns r ->
        (parse_success r /\ ~ parse_failure r)
        \/ (parse_failure r /\ ~ parse_success r))
  /\ (forall s isx i' e' m,
        argi s < argc ->
        parse_arg ctx argc argv (argi s) (mem s) = Returns (isx, i', e') ->
        e_err e' = Some m ->
        run ctx argc argv s
        = Returns {| ret := 0; inextras := None; out := e' |}).
Proof.
  split; [| split; [| split]].
  - unfold xopt_parse. destruct (malloc _ _ _); [| discriminate].
    unfold xopt_run.
    match goal with |- context [xopt_loop _ _ _ _ _ ?n ctx argc argv ?s0] =>
      pose proof (xopt_loop_fuel ctx argc argv n s0 (le_n _)) as Hfuel;
      destruct (loop n ctx argc argv s0) end;
      cbn [mbind outcome_bind]; [discriminate | discriminate | contradiction].
  - intros Hp -> Hsmall.
    unfold xopt_parse, malloc.
    destruct (alloc_ok _); [| eexists; reflexivity].
    rewrite (slots_of_init Hp). unfold xopt_run.
    match goal with |- context [xopt_loop _ _ _ _ _ ?n ctx _ argv ?s0] =>
      destruct (loop_defined_small ctx argv n s0 (replicate (Z.to_nat EXTRAS_INIT) None))
        as [s' Hs'] end;
      cbn [argi extrasCount extrasCapac extras mem e_err].
    + exact Hsmall.
    + destruct (has_flag ctx XOPT_CTX_KEEPFIRST); lia.
    + reflexivity.
    + reflexivity.
    + apply length_replicate.
    + reflexivity.
    + apply le_n.
    + cbn [argi] in Hs'. rewrite Hs'. eexists. reflexivity.
  - intros r Hr. unfold xopt_parse in Hr.
    destruct (malloc sizeof_ptr alloc_ok (sizeof_ptr * EXTRAS_INIT)) as [b|].
    + unfold xopt_run in Hr.
      match type of Hr with context [xopt_loop _ _ _ _ _ ?n ctx argc argv ?s0] =>
        destruct (loop n ctx argc argv s0) as [s'| |] eqn:Hloop end;
        cbn [mbind outcome_bind] in Hr; try discriminate.
      injection Hr as <-.
      apply loop_extras_owned in Hloop;
        cbn [argi extrasCount extrasCapac extras mem e_err] in *.
      * destruct Hloop as [Hc Hb]. apply xopt_end_outcome; assumption.
      * reflexivity.
      * lia.
      * eexists. split; [reflexivity | lia].
    + injection Hr as <-. right. split.
      * split; [eexists; reflexivity | split; reflexivity].
      * intros [Hnone _]. discriminate.
  - intros s isx i' e' m Hlt Hparse Herr.
    destruct (run_positive ctx argc argv s Hlt) as [n Hn].
    rewrite (run_unfold _ _ _ _ _ Hn).
    rewrite (loop_step_error n _ _ _ _ _ _ _ _ Hlt Hparse Herr).
    cbn [mbind outcome_bind]. unfold xopt_end. cbn [mem]. rewrite Herr. reflexivity.
Qed.


(** *** The "parse all" loop, one character at a time *)

Lemma parse_all_flag ctx argc argv n c rest i e o :
  find_short c (options ctx) = Some o ->
  requiresArg o = false ->
  expand ctx argc argv (S n) (String c rest) i e
  = expand ctx argc argv n rest i (do_set e o None).
Proof.
  intros Hfind Hreq. cbn [parse_all]. rewrite get_arg_short, Hfind, Hreq.
  reflexivity.
Qed.

(** A value-requiring option met while characters remain after it, other
    than exactly one. *)
Lemma parse_all_value_embedded ctx argc argv n c rest i e o :
  find_short c (options ctx) = Some o ->
  requiresArg o = true ->
  n <> 1%nat ->
  expand ctx argc argv (S n) (String c rest) i e
  = expand ctx argc argv n rest i
      (set_err e (fmt_c "combined short option requiring value not last: -"
                    (shortArg o))).
Proof.
  intros Hfind Hreq Hn. cbn [parse_all]. rewrite get_arg_short, Hfind, Hreq.
  destruct (Nat.eqb_spec n 1); [contradiction | reflexivity].
Qed.

(** A value-requiring option that is the last character of its cluster:
    the body runs with [length = 0], the test [length == 1] fails. *)
Lemma parse_all_value_last ctx argc argv c rest i e o :
  find_short c (options ctx) = Some o ->
  requiresArg o = true ->
  expand ctx argc argv 1 (String c rest) i e
  = (i, set_err e (fmt_c "combined short option requiring value not last: -"
                     (shortArg o))).
Proof.
  intros Hfind Hreq.
  rewrite (parse_all_value_embedded _ _ _ _ _ _ _ _ _ Hfind Hreq) by discriminate.
  reflexivity.
Qed.

(** A value-requiring option followed by exactly one more character. *)
Lemma parse_all_value_before_last ctx argc argv c rest i e o :
  find_short c (options ctx) = Some o ->
  requiresArg o = true ->
  expand ctx argc argv 2 (String c rest) i e
  = if argc =? i + 1
    then expand ctx argc argv 1 rest (i + 1) (do_set e o (argv_at argv (i + 1)))
    else expand ctx argc argv 1 rest i
           (set_err e (fmt_c "missing option value: -" (shortArg o))).
Proof.
  intros Hfind Hreq. cbn [parse_all]. rewrite get_arg_short, Hfind, Hreq.
  reflexivity.
Qed.

(** An unknown character ends the expansion; under strict-unknown-options
    the message names [arg[0]] after [arg++], the character that follows
    the unknown one. *)
Lemma parse_all_unknown ctx argc argv n c rest i e :
  find_short c (options ctx) = None ->
  expand ctx argc argv (S n) (String c rest) i e
  = (i, if has_flag ctx XOPT_CTX_STRICT
        then set_err e (fmt_c "invalid argument: -" (char_at rest 0))
        else e).
Proof.
  intros Hfind. cbn [parse_all]. rewrite get_arg_short, Hfind. reflexivity.
Qed.


(** *** Positional tokens within the allocated capacity *)

Lemma argv_at_middle pre tok rest :
  argv_at (pre ++ tok :: rest) (Z.of_nat (List.length pre)) = Some tok.
Proof.
  unfold argv_at. destruct (Z.ltb_spec (Z.of_nat (List.length pre)) 0); [lia |].
  rewrite Nat2Z.id. apply list_lookup_middle. reflexivity.
Qed.

Lemma take_S_insert {A : Type} (l : list A) (n : nat) (x : A) :
  (n < List.length l)%nat -> take (S n) (<[n := x]> l) = (take n l ++ [x])%list.
Proof.
  intros Hn.
  rewrite (take_S_r _ _ x) by (apply list_lookup_insert_eq; exact Hn).
  rewrite take_insert_ge by lia. reflexivity.
Qed.

Lemma loop_positionals ctx rest :
  Forall positional rest ->
  forall pre post fuel s b c,
    argi s = Z.of_nat (List.length pre) ->
    extrasCount s = Z.of_nat c ->
    e_err (mem s) = None ->
    extras s = Some b ->
    Z.of_nat (c + List.length rest) <= extrasCapac s ->
    extrasCapac s <= Z.of_nat (List.length b) ->
    exists b',
      loop (List.length rest + fuel) ctx
        (Z.of_nat (List.length (pre ++ rest ++ post))) (pre ++ rest ++ post) s
      = loop fuel ctx
          (Z.of_nat (List.length (pre ++ rest ++ post))) (pre ++ rest ++ post)
          {| argi := Z.of_nat (List.length (pre ++ rest));
             extrasCount := Z.of_nat (c + List.length rest);
             extrasCapac := extrasCapac s;
             extras := Some b';
             mem := mem s |}
      /\ List.length b' = List.length b
      /\ take (c + List.length rest) b' = (take c b ++ (Some <$> rest))%list.
Proof.
  induction 1 as [|tok rest Htok Hrest IH];
    intros pre post fuel s b c Hargi Hc Herr Hb Hcap Hlen.
  - exists b. rewrite app_nil_r. cbn [List.length Nat.add app fmap list_fmap].
    rewrite Nat.add_0_r, app_nil_r. split; [| split; reflexivity].
    destruct s; cbn in *. subst. reflexivity.
  - cbn [List.length] in Hcap.
    cbn [List.length Nat.add].
    rewrite (loop_step_extra _ ctx _ _ s tok b);
      [ | rewrite !length_app; cbn [List.length]; lia
        | rewrite Hargi; apply argv_at_middle
        | exact Htok | exact Herr | exact Hb | lia | lia ].
    replace (pre ++ (tok :: rest) ++ post)%list
      with ((pre ++ [tok]) ++ rest ++ post)%list
      by (rewrite <- app_assoc; reflexivity).
    rewrite Hc, Nat2Z.id.
    edestruct (IH (pre ++ [tok])%list post fuel
                 {| argi := argi s + 1; extrasCount := Z.of_nat c + 1;
                    extrasCapac := extrasCapac s;
                    extras := Some (<[c := Some tok]> b); mem := mem s |}
                 (<[c := Some tok]> b) (S c)) as (b' & Hloop & Hlen' & Htake);
      cbn [argi extrasCount extrasCapac extras mem].
    + rewrite length_app. cbn [List.length]. lia.
    + lia.
    + exact Herr.
    + reflexivity.
    + lia.
    + rewrite length_insert. exact Hlen.
    + exists b'. split; [| split].
      * rewrite Hloop. cbn [extrasCapac mem].
        replace ((pre ++ [tok]) ++ rest)%list with (pre ++ tok :: rest)%list
          by (rewrite <- app_assoc; reflexivity).
        replace (S c + List.length rest)%nat with (c + S (List.length rest))%nat
          by lia.
        reflexivity.
      * rewrite Hlen', length_insert. reflexivity.
      * replace (c + S (List.length rest))%nat with (S c + List.length rest)%nat by lia.
        rewrite Htake, take_S_insert by lia.
        rewrite <- app_assoc. reflexivity.
Qed.

(** The elements the scan starts after: index 0 unless keep-first is
    set. *)
Lemma first_index ctx :
  (if has_flag ctx XOPT_CTX_KEEPFIRST then 0 else 1)
  = Z.of_nat (if has_flag ctx XOPT_CTX_KEEPFIRST then 0 else 1)%nat.
Proof. destruct (has_flag ctx XOPT_CTX_KEEPFIRST); reflexivity. Qed.

(** X1: within the initial capacity, an argument vector of positional
    tokens comes back unchanged and in order, minus the skipped first
    element (index 0 unless keep-first is set); the sink is not called. *)
Lemma positionals_within_capacity ctx argv d :
  let skip := (if has_flag ctx XOPT_CTX_KEEPFIRST then 0 else 1)%nat in
  0 < sizeof_ptr ->
  alloc_ok (sizeof_ptr * EXTRAS_INIT) = true ->
  (skip <= List.length argv)%nat ->
  Forall positional (drop skip argv) ->
  Z.of_nat (List.length (drop skip argv)) <= EXTRAS_INIT ->
  exists r,
    parse ctx (Z.of_nat (List.length argv)) argv d = Returns r
    /\ ret r = Z.of_nat (List.length (drop skip argv))
    /\ extras_of r = Some (Some <$> drop skip argv)
    /\ out r = {| e_data := d; e_calls := []; e_err := None |}.
Proof.
  intros skip Hp Hok Hskip Hpos Hlen.
  rewrite (parse_unfold _ _ _ _ Hp Hok), first_index. fold skip.
  set (s0 := {| argi := Z.of_nat skip |}).
  rewrite (run_unfold _ _ _ s0 (List.length (drop skip argv) + 0))
    by (subst s0; cbn [argi]; rewrite length_drop; lia).
  destruct (loop_positionals ctx (drop skip argv) Hpos (take skip argv) [] 0%nat s0
              (replicate (Z.to_nat EXTRAS_INIT) None) 0%nat)
    as (b' & Hloop & _ & Htake);
    subst s0; cbn [argi extrasCount extrasCapac extras mem e_err].
  - rewrite length_take. f_equal. lia.
  - reflexivity.
  - reflexivity.
  - reflexivity.
  - exact Hlen.
  - rewrite length_replicate. unfold EXTRAS_INIT. lia.
  - rewrite app_nil_r, take_drop in Hloop. cbn [argi Nat.add] in Hloop.
    rewrite Hloop, loop_exit by (cbn [argi]; lia).
    cbn [mbind outcome_bind].
    eexists. split; [reflexivity |]. unfold xopt_end, extras_of.
    cbn [mem e_err ret inextras out extrasCount extras].
    split; [reflexivity |]. split; [| reflexivity].
    rewrite Nat2Z.id. cbn [Nat.add take] in Htake. rewrite Htake. reflexivity.
Qed.

(** *** Whole clusters *)

(** An error reported for the first scanned token is the outcome of the
    parse. *)
Lemma parse_first_token_error ctx argc argv d isx i' e' m :
  0 < sizeof_ptr ->
  alloc_ok (sizeof_ptr * EXTRAS_INIT) = true ->
  has_flag ctx XOPT_CTX_KEEPFIRST = false ->
  1 < argc ->
  parse_arg ctx argc argv 1 {| e_data := d; e_calls := []; e_err := None |}
  = Returns (isx, i', e') ->
  e_err e' = Some m ->
  parse ctx argc argv d = Returns {| ret := 0; inextras := None; out := e' |}.
Proof.
  intros Hp Hok Hkeep Hargc Hparse Herr.
  rewrite (parse_unfold _ _ _ _ Hp Hok), Hkeep.
  match goal with |- run ctx argc argv ?s0 = _ =>
    destruct (run_positive ctx argc argv s0 Hargc) as [n Hn];
    rewrite (run_unfold _ _ _ _ _ Hn);
    rewrite (loop_step_error n ctx argc argv s0 _ _ _ _ Hargc Hparse Herr) end.
  cbn [mbind outcome_bind]. unfold xopt_end. cbn [mem]. rewrite Herr. reflexivity.
Qed.

(** [-abc] with [a], [b] flags and [c] requiring a value, expanded. *)
Lemma cluster_flags_then_value ctx argc argv i e a b c oa ob oc :
  argv_at argv i = Some (String "-" (String a (String b (String c "")))) ->
  a <> "-"%char ->
  has_flag ctx XOPT_CTX_NOCONDENSE = false ->
  has_flag ctx XOPT_CTX_SLOPPYSHORTS = false ->
  find_short a (options ctx) = Some oa -> requiresArg oa = false ->
  find_short b (options ctx) = Some ob -> requiresArg ob = false ->
  find_short c (options ctx) = Some oc -> requiresArg oc = true ->
  parse_arg ctx argc argv i e
  = Returns (false, i,
             set_err (do_set (do_set e oa None) ob None)
               (fmt_c "combined short option requiring value not last: -"
                  (shortArg oc))).
Proof.
  intros Hat Ha Hnc Hsl Hfa Hra Hfb Hrb Hfc Hrc.
  rewrite (parse_arg_short _ _ _ _ _ _ Hat Ha), Hnc, Hsl.
  rewrite andb_false_r. cbn [andb negb strlen String.length].
  rewrite (parse_all_flag _ _ _ _ _ _ _ _ _ Hfa Hra).
  rewrite (parse_all_flag _ _ _ _ _ _ _ _ _ Hfb Hrb).
  rewrite (parse_all_value_last _ _ _ _ _ _ _ _ Hfc Hrc).
  reflexivity.
Qed.

(** A lone [-c] with [c] requiring a value, whatever follows it. *)
Lemma lone_value_option ctx argc argv i e c oc :
  argv_at argv i = Some (String "-" (String c "")) ->
  c <> "-"%char ->
  find_short c (options ctx) = Some oc -> requiresArg oc = true ->
  parse_arg ctx argc argv i e
  = Returns (false, i,
             set_err e
               (fmt_c "combined short option requiring value not last: -"
                  (shortArg oc))).
Proof.
  intros Hat Hc Hfc Hrc.
  rewrite (parse_arg_short _ _ _ _ _ _ Hat Hc).
  cbn [strlen String.length Nat.ltb Nat.leb andb].
  rewrite (parse_all_value_last _ _ _ _ _ _ _ _ Hfc Hrc).
  reflexivity.
Qed.

(** [-abc] with [a] and [b] requiring a value and [c] a flag, when an
    element follows the token: the error set for [a] is overwritten by
    the one for [b], and the sink is still called for [c]. *)
Lemma cluster_value_value_flag ctx argc argv i e a b c oa ob oc :
  argv_at argv i = Some (String "-" (String a (String b (String c "")))) ->
  a <> "-"%char ->
  argc <> i + 1 ->
  has_flag ctx XOPT_CTX_NOCONDENSE = false ->
  has_flag ctx XOPT_CTX_SLOPPYSHORTS = false ->
  find_short a (options ctx) = Some oa -> requiresArg oa = true ->
  find_short b (options ctx) = Some ob -> requiresArg ob = true ->
  find_short c (options ctx) = Some oc -> requiresArg oc = false ->
  parse_arg ctx argc argv i e
  = Returns (false, i,
             do_set
               (set_err
                  (set_err e
                     (fmt_c "combined short option requiring value not last: -"
                        (shortArg oa)))
                  (fmt_c "missing option value: -" (shortArg ob)))
               oc None).
Proof.
  intros Hat Ha Hnext Hnc Hsl Hfa Hra Hfb Hrb Hfc Hrc.
  rewrite (parse_arg_short _ _ _ _ _ _ Hat Ha), Hnc, Hsl.
  rewrite andb_false_r. cbn [andb negb strlen String.length].
  rewrite (parse_all_value_embedded _ _ _ _ _ _ _ _ _ Hfa Hra) by discriminate.
  rewrite (parse_all_value_before_last _ _ _ _ _ _ _ _ Hfb Hrb).
  destruct (Z.eqb_spec argc (i + 1)); [contradiction |].
  rewrite (parse_all_flag _ _ _ _ _ _ _ _ _ Hfc Hrc).
  reflexivity.
Qed.

(** [-abc] with [a] requiring a value and [b], [c] flags: the error set
    for [a] stays, unless the sink, still called for [b] and [c], reports
    one of its own. *)
Lemma cluster_value_then_flags ctx argc argv i e a b c oa ob oc :
  argv_at argv i = Some (String "-" (String a (String b (String c "")))) ->
  a <> "-"%char ->
  has_flag ctx XOPT_CTX_NOCONDENSE = false ->
  has_flag ctx XOPT_CTX_SLOPPYSHORTS = false ->
  find_short a (options ctx) = Some oa -> requiresArg oa = true ->
  find_short b (options ctx) = Some ob -> requiresArg ob = false ->
  find_short c (options ctx) = Some oc -> requiresArg oc = false ->
  parse_arg ctx argc argv i e
  = Returns (false, i,
             do_set
               (do_set
                  (set_err e
                     (fmt_c "combined short option requiring value not last: -"
                        (shortArg oa)))
                  ob None)
               oc None).
Proof.
  intros Hat Ha Hnc Hsl Hfa Hra Hfb Hrb Hfc Hrc.
  rewrite (parse_arg_short _ _ _ _ _ _ Hat Ha), Hnc, Hsl.
  rewrite andb_false_r. cbn [andb negb strlen String.length].
  rewrite (parse_all_value_embedded _ _ _ _ _ _ _ _ _ Hfa Hra) by discriminate.
  rewrite (parse_all_flag _ _ _ _ _ _ _ _ _ Hfb Hrb).
  rewrite (parse_all_flag _ _ _ _ _ _ _ _ _ Hfc Hrc).
  reflexivity.
Qed.

(** A cluster that starts with an unknown character, expanded. *)
Lemma cluster_unknown_first ctx argc argv i e c rest :
  argv_at argv i = Some (String "-" (String c rest)) ->
  c <> "-"%char ->
  has_flag ctx XOPT_CTX_NOCONDENSE = false ->
  has_flag ctx XOPT_CTX_SLOPPYSHORTS = false ->
  find_short c (options ctx) = None ->
  parse_arg ctx argc argv i e
  = Returns (false, i,
             if has_flag ctx XOPT_CTX_STRICT
             then set_err e (fmt_c "invalid argument: -" (char_at rest 0))
             else e).
Proof.
  intros Hat Hc Hnc Hsl Hfind.
  rewrite (parse_arg_short _ _ _ _ _ _ Hat Hc), Hnc, Hsl.
  rewrite !andb_false_r. cbn [strlen String.length].
  rewrite (parse_all_unknown _ _ _ _ _ _ _ _ Hfind). reflexivity.
Qed.

(** *** Growing the buffer *)

Lemma realloc_length b bytes b' :
  realloc sizeof_ptr alloc_ok b bytes = Some b' ->
  List.length b' = slots_of sizeof_ptr bytes.
Proof.
  unfold realloc. destruct (alloc_ok bytes); [| discriminate].
  intros [= <-]. rewrite length_app, length_take, length_replicate. lia.
Qed.

(** The store that follows a successful growth is out of bounds as soon
    as a pointer takes more than one byte: [realloc] was asked for
    [extrasCapac] bytes, not for [extrasCapac] pointers. *)
Lemma loop_grow_undefined fuel ctx argc argv s tok b :
  2 <= sizeof_ptr ->
  argi s < argc ->
  argv_at argv (argi s) = Some tok ->
  positional tok ->
  e_err (mem s) = None ->
  extras s = Some b ->
  extrasCount s = extrasCapac s ->
  EXTRAS_INIT <= extrasCapac s ->
  alloc_ok (extrasCapac s + EXTRAS_INIT) = true ->
  loop (S fuel) ctx argc argv s = Undefined.
Proof.
  intros Hp Hlt Hat Htok Herr Hb Hfull Hcap Hok.
  rewrite loop_S by exact Hlt.
  rewrite (parse_arg_positional _ _ _ _ _ _ Hat Htok).
  cbn [mbind outcome_bind]. rewrite Herr.
  rewrite bool_decide_eq_false_2 by (intros [? ?]; discriminate).
  unfold _xopt_assert_increment. cbn [argi extrasCount extrasCapac extras mem].
  rewrite Hfull, Z.eqb_refl, Hb.
  destruct (realloc sizeof_ptr alloc_ok b (extrasCapac s + EXTRAS_INIT)) as [b'|] eqn:Hre.
  - cbn [mbind outcome_bind argi extrasCount extrasCapac extras mem].
    rewrite Herr.
    rewrite bool_decide_eq_false_2 by (intros [? ?]; discriminate).
    apply realloc_length in Hre. unfold store.
    assert (Hslots : Z.of_nat (List.length b') <= extrasCapac s).
    { rewrite Hre. unfold slots_of. unfold EXTRAS_INIT in *.
      assert ((extrasCapac s + 10) / sizeof_ptr <= extrasCapac s)
        by (apply Z.div_le_upper_bound; nia).
      lia. }
    destruct (Z.ltb_spec (extrasCapac s) (Z.of_nat (List.length b'))); [lia |].
    rewrite andb_false_r. reflexivity.
  - unfold realloc in Hre. rewrite Hok in Hre. discriminate.
Qed.

(** X2: past the initial capacity the behaviour is undefined. On an
    argument vector with more than [EXTRAS_INIT] positional tokens after
    the skipped element, when pointers take at least two bytes and the
    allocator grants the growth, the store of the next extra is out of
    the block [realloc] returned. *)
Lemma positionals_beyond_capacity ctx argv d :
  let skip := (if has_flag ctx XOPT_CTX_KEEPFIRST then 0 else 1)%nat in
  2 <= sizeof_ptr ->
  alloc_ok (sizeof_ptr * EXTRAS_INIT) = true ->
  alloc_ok (EXTRAS_INIT + EXTRAS_INIT) = true ->
  Forall positional (drop skip argv) ->
  EXTRAS_INIT < Z.of_nat (List.length (drop skip argv)) ->
  parse ctx (Z.of_nat (List.length argv)) argv d = Undefined.
Proof.
  intros skip Hp Hok Hok2 Hpos Hlen.
  assert (Hskip : (skip <= List.length argv)%nat)
    by (rewrite length_drop in Hlen; unfold EXTRAS_INIT in Hlen; lia).
  rewrite (parse_unfold _ _ _ _ ltac:(lia) Hok), first_index. fold skip.
  set (s0 := {| argi := Z.of_nat skip |}).
  set (n := Z.to_nat EXTRAS_INIT).
  assert (Hsplit : drop skip argv = (take n (drop skip argv) ++ drop n (drop skip argv))%list)
    by (symmetry; apply take_drop).
  destruct (drop n (drop skip argv)) as [|tok post] eqn:Hpost.
  { apply (f_equal (@List.length _)) in Hpost.
    rewrite !length_drop in Hpost. rewrite length_drop in Hlen.
    subst n. unfold EXTRAS_INIT in *. cbn [List.length] in Hpost. lia. }
  assert (Hfirst : List.length (take n (drop skip argv)) = n).
  { rewrite length_take. subst n. unfold EXTRAS_INIT in *. lia. }
  assert (Hargv : argv = (take skip argv ++ take n (drop skip argv) ++ tok :: post)%list).
  { rewrite <- Hsplit. symmetry. apply take_drop. }
  rewrite Hsplit in Hpos. apply Forall_app in Hpos. destruct Hpos as [Hpos1 Hpos2].
  apply Forall_cons in Hpos2. destruct Hpos2 as [Htok _].
  rewrite (run_unfold _ _ _ s0 (List.length (take n (drop skip argv)) + S (List.length post))).
  2:{ subst s0. cbn [argi]. rewrite Hargv at 1.
      rewrite !length_app, length_take. cbn [List.length]. lia. }
  destruct (loop_positionals ctx (take n (drop skip argv)) Hpos1 (take skip argv)
              (tok :: post) (S (List.length post)) s0
              (replicate (Z.to_nat EXTRAS_INIT) None) 0%nat)
    as (b' & Hloop & Hlen' & _);
    subst s0; cbn [argi extrasCount extrasCapac extras mem e_err].
  - rewrite length_take. f_equal. lia.
  - reflexivity.
  - reflexivity.
  - reflexivity.
  - rewrite Hfirst. subst n. unfold EXTRAS_INIT. lia.
  - rewrite length_replicate. unfold EXTRAS_INIT. lia.
  - rewrite <- Hargv in Hloop. cbn [argi Nat.add] in Hloop. rewrite Hloop.
    cbn [mbind outcome_bind].
    rewrite (loop_grow_undefined _ ctx _ argv _ tok b');
      cbn [argi extrasCount extrasCapac extras mem e_err];
      [ reflexivity | exact Hp | | | exact Htok | reflexivity | reflexivity
      | | unfold EXTRAS_INIT; lia | exact Hok2 ].
    + rewrite length_app, !length_take, length_drop.
      rewrite length_drop in Hlen. subst n. unfold EXTRAS_INIT in *. lia.
    + rewrite Hargv at 1. rewrite app_assoc. apply argv_at_middle.
    + rewrite Hfirst. subst n. rewrite Z2Nat.id by (unfold EXTRAS_INIT; lia).
      reflexivity.
Qed.

(** ** Further properties of the scanner *)

(** *** Classification *)

Lemma is_positional_true tok : is_positional tok = true <-> positional tok.
Proof.
  unfold is_positional, positional.
  destruct (Ascii.eqb_spec (char_at tok 0) "-"); cbn; split; congruence.
Qed.

(** X11: the class computed by [_xopt_get_size] is the number of leading
    dashes of the token, capped at two: whatever follows the second dash,
    dashes included, belongs to the payload. *)
Theorem get_size_counts_dashes tok :
  _xopt_get_size tok = Z.of_nat (Nat.min 2 (leading_dashes tok)).
Proof.
  unfold _xopt_get_size.
  destruct tok as [|c tok]; [reflexivity |].
  change (char_at (String c tok) 0) with c.
  change (char_at (String c tok) 1) with (char_at tok 0).
  cbn [leading_dashes].
  destruct (Ascii.eqb c "-"); [| reflexivity]. cbn [negb].
  destruct tok as [|c' tok]; [reflexivity |].
  change (char_at (String c' tok) 0) with c'. cbn [leading_dashes].
  destruct (Ascii.eqb c' "-"); reflexivity.
Qed.

(** What [_xopt_parse_arg] answers is decided by the first character. *)
Lemma parse_arg_class ctx argc argv i e tok isx i' e' :
  argv_at argv i = Some tok ->
  parse_arg ctx argc argv i e = Returns (isx, i', e') ->
  isx = is_positional tok.
Proof.
  intros Hat. unfold _xopt_parse_arg, is_positional, _xopt_get_size. rewrite Hat.
  destruct (Ascii.eqb (char_at tok 0) "-"); cbn [negb].
  - destruct (negb (Ascii.eqb (char_at tok 1) "-")); cbn [Z.eqb Pos.eqb].
    + repeat match goal with
             | |- (if ?c then _ else _) = _ -> _ => destruct c
             | |- (match ?c with _ => _ end) = _ -> _ => destruct c
             end; intros [= <- _ _]; reflexivity.
    + intros [= <- _ _]. reflexivity.
  - cbn [Z.eqb]. intros [= <- _ _]. reflexivity.
Qed.

(** A token that is not of the short form leaves caller memory and the
    scan position alone. *)
Lemma parse_arg_not_short ctx argc argv i e tok :
  argv_at argv i = Some tok ->
  _xopt_get_size tok <> 1 ->
  parse_arg ctx argc argv i e = Returns (is_positional tok, i, e).
Proof.
  intros Hat Hsize. unfold _xopt_parse_arg. rewrite Hat.
  destruct (Z.eqb_spec (_xopt_get_size tok) 1); [contradiction |].
  unfold is_positional. revert Hsize. clear. unfold _xopt_get_size.
  destruct (Ascii.eqb (char_at tok 0) "-"); cbn [negb]; [| reflexivity].
  destruct (Ascii.eqb (char_at tok 1) "-"); cbn [negb]; [reflexivity | congruence].
Qed.

(** *** The expansion loop never binds a value *)

Lemma argv_at_end argv : argv_at argv (Z.of_nat (List.length argv)) = None.
Proof.
  unfold argv_at. destruct (Z.ltb_spec (Z.of_nat (List.length argv)) 0); [reflexivity |].
  apply lookup_ge_None. lia.
Qed.

Lemma parse_all_absent_values ctx argv n arg i e :
  let argc := Z.of_nat (List.length argv) in
  exists new,
    e_calls (snd (expand ctx argc argv n arg i e)) = (e_calls e ++ new)%list
    /\ Forall (fun c : call => snd c = None) new
    /\ (fst (expand ctx argc argv n arg i e) = i
        \/ (fst (expand ctx argc argv n arg i e) = i + 1 /\ argc = i + 1)).
Proof.
  intros argc. revert arg i e.
  induction n as [|n IH]; intros arg i e; cbn [parse_all].
  - exists []. rewrite app_nil_r. cbn. auto.
  - destruct (_xopt_get_arg arg 1 (options ctx) 1) as [requires [o|]].
    + destruct requires.
      * destruct (Nat.eqb n 1).
        -- destruct (Z.eqb_spec argc (i + 1)) as [Hlast|Hmore].
           ++ destruct (IH (str_advance 1 arg) (i + 1)
                          (do_set e o (argv_at argv (i + 1))))
                as (new & Hcalls & Hnone & Hpos).
              exists ((o, argv_at argv (i + 1)) :: new).
              rewrite Hcalls, call_set_calls, <- app_assoc.
              split; [reflexivity |]. split.
              ** constructor; [| exact Hnone]. cbn [snd].
                 rewrite <- Hlast. apply argv_at_end.
              ** right. destruct Hpos as [-> | [_ Hbad]]; [auto | lia].
           ++ destruct (IH (str_advance 1 arg) i
                          (set_err e (fmt_c "missing option value: -" (shortArg o))))
                as (new & Hcalls & Hnone & Hpos).
              exists new. auto.
        -- destruct (IH (str_advance 1 arg) i
                       (set_err e
                          (fmt_c "combined short option requiring value not last: -"
                             (shortArg o))))
             as (new & Hcalls & Hnone & Hpos).
           exists new. auto.
      * destruct (IH (str_advance 1 arg) i (do_set e o None))
          as (new & Hcalls & Hnone & Hpos).
        exists ((o, None) :: new).
        rewrite Hcalls, call_set_calls, <- app_assoc.
        split; [reflexivity |]. split; [constructor; [reflexivity | exact Hnone] | exact Hpos].
    + exists []. rewrite app_nil_r. cbn [fst snd].
      split; [destruct (has_flag ctx XOPT_CTX_STRICT); reflexivity |]. auto.
Qed.

(** The scan position moves inside [_xopt_parse_arg] only past the last
    element. *)
Lemma parse_arg_position ctx argv i e isx i' e' :
  parse_arg ctx (Z.of_nat (List.length argv)) argv i e = Returns (isx, i', e') ->
  i' = i \/ (i' = i + 1 /\ Z.of_nat (List.length argv) = i + 1).
Proof.
  unfold _xopt_parse_arg. destruct (argv_at argv i) as [tok|]; [| discriminate].
  destruct (_ =? 1).
  - destruct (_ && _ && _); [intros [= _ <- _]; auto |].
    destruct (_ && _).
    + destruct (snd _); intros [= _ <- _]; auto.
    + match goal with |- context [parse_all _ _ ctx ?c argv ?n ?a i e] =>
        destruct (parse_all_absent_values ctx argv n a i e) as (_ & _ & _ & Hpos);
        destruct (expand ctx c argv n a i e) as [j e0] end.
      cbn [fst] in Hpos. intros [= _ <- _]. exact Hpos.
  - destruct (_ =? 2); intros [= _ <- _]; auto.
Qed.

(** X6: without sloppy mode no option ever receives a value. Every call
    the scanner makes to the sink for a token passes the null value, and
    the scan position moves past the token only when the token is the
    last element of the argument vector. *)
Theorem expansion_never_binds_value ctx argv i e isx i' e' :
  has_flag ctx XOPT_CTX_SLOPPYSHORTS = false ->
  parse_arg ctx (Z.of_nat (List.length argv)) argv i e = Returns (isx, i', e') ->
  (exists new,
     e_calls e' = (e_calls e ++ new)%list
     /\ Forall (fun c : call => snd c = None) new)
  /\ (i' = i \/ (i' = i + 1 /\ Z.of_nat (List.length argv) = i + 1)).
Proof.
  intros Hsl Hparse. split; [| exact (parse_arg_position _ _ _ _ _ _ _ Hparse)].
  revert Hparse. unfold _xopt_parse_arg.
  destruct (argv_at argv i) as [tok|]; [| discriminate].
  rewrite Hsl, andb_false_r.
  destruct (_ =? 1).
  - destruct (_ && _ && _).
    + intros [= _ _ <-]. exists []. rewrite app_nil_r. auto.
    + match goal with |- context [parse_all _ _ ctx ?c argv ?n ?a i e] =>
        destruct (parse_all_absent_values ctx argv n a i e) as (new & Hcalls & Hnone & _);
        destruct (expand ctx c argv n a i e) as [j e0] end.
      cbn [snd] in Hcalls. intros [= _ _ <-]. exists new. auto.
  - destruct (_ =? 2); intros [= _ _ <-]; exists []; rewrite app_nil_r; auto.
Qed.

(** *** Clusters of flags *)

Lemma foldl_set_calls (os : list xoptOption) e :
  e_calls (foldl (fun e' o => do_set e' o None) e os)
  = (e_calls e ++ ((fun o => (o, None)) <$> os))%list.
Proof.
  revert e. induction os as [|o os IH]; intros e; cbn [foldl fmap list_fmap].
  - rewrite app_nil_r. reflexivity.
  - rewrite IH, call_set_calls, <- app_assoc. reflexivity.
Qed.

Lemma foldl_set_err (os : list xoptOption) e :
  (forall d o, snd (_xopt_set d o None) = None) ->
  e_err (foldl (fun e' o => do_set e' o None) e os) = e_err e.
Proof.
  intros Hacc. revert e. induction os as [|o os IH]; intros e; cbn [foldl].
  - reflexivity.
  - rewrite IH, call_set_err, Hacc. reflexivity.
Qed.

Lemma parse_all_flag_run ctx argc argv payload os i e :
  has_flag ctx XOPT_CTX_STRICT = false ->
  flag_run (options ctx) payload = Some os ->
  expand ctx argc argv (strlen payload) payload i e
  = (i, foldl (fun e' o => do_set e' o None) e os).
Proof.
  intros Hstrict. revert os e.
  induction payload as [|c rest IH]; intros os e Hrun; cbn [flag_run] in Hrun.
  - injection Hrun as <-. reflexivity.
  - cbn [strlen String.length].
    destruct (find_short c (options ctx)) as [o|] eqn:Hfind.
    + destruct (requiresArg o) eqn:Hreq; [discriminate |].
      destruct (flag_run (options ctx) rest) as [os'|]; [| discriminate].
      injection Hrun as <-.
      rewrite (parse_all_flag _ _ _ _ _ _ _ _ _ Hfind Hreq).
      apply (IH os' _ eq_refl).
    + injection Hrun as <-.
      rewrite (parse_all_unknown _ _ _ _ _ _ _ _ Hfind), Hstrict. reflexivity.
Qed.

(** X7: with no-combine, sloppy and strict-unknown-options unset, a
    cluster made of flag characters calls the sink once per character, in
    order and with the null value; the walk ends silently at the first
    character that names no option, and what follows it is not looked at.
    A lone dash calls nothing. If the sink accepts every flag the token
    leaves no error. *)
Theorem flag_cluster_expands ctx argc argv i e payload os :
  argv_at argv i = Some (String "-" payload) ->
  positional payload ->
  has_flag ctx XOPT_CTX_NOCONDENSE = false ->
  has_flag ctx XOPT_CTX_SLOPPYSHORTS = false ->
  has_flag ctx XOPT_CTX_STRICT = false ->
  flag_run (options ctx) payload = Some os ->
  exists e',
    parse_arg ctx argc argv i e = Returns (false, i, e')
    /\ e_calls e' = (e_calls e ++ ((fun o => (o, None)) <$> os))%list
    /\ ((forall d o, snd (_xopt_set d o None) = None) -> e_err e' = e_err e).
Proof.
  intros Hat Hpay Hnc Hsl Hstrict Hrun.
  exists (foldl (fun e' o => do_set e' o None) e os).
  split; [| split; [apply foldl_set_calls | apply foldl_set_err]].
  rewrite (parse_arg_short _ _ _ _ _ _ Hat Hpay), Hnc, Hsl.
  rewrite !andb_false_r.
  rewrite (parse_all_flag_run _ _ _ _ _ _ _ Hstrict Hrun). reflexivity.
Qed.

(** X8: in sloppy mode a multi-character token whose first character
    names no option is dropped whole, without any call to the sink; under
    strict-unknown-options it is an error whose message names that first
    character. *)
Theorem sloppy_unknown_first ctx argc argv i e c rest :
  argv_at argv i = Some (String "-" (String c rest)) ->
  c <> "-"%char ->
  rest <> ""%string ->
  has_flag ctx XOPT_CTX_SLOPPYSHORTS = true ->
  find_short c (options ctx) = None ->
  parse_arg ctx argc argv i e
  = Returns (false, i,
             if has_flag ctx XOPT_CTX_STRICT
             then set_err e (fmt_c "invalid argument: -" c)
             else e).
Proof.
  intros Hat Hc Hrest Hsl Hfind.
  rewrite (parse_arg_short _ _ _ _ _ _ Hat) by exact Hc.
  rewrite Hsl. cbn [negb]. rewrite andb_false_r.
  destruct rest as [|c' rest']; [contradiction |].
  cbn [strlen String.length Nat.ltb Nat.leb andb].
  rewrite get_arg_short, Hfind. reflexivity.
Qed.

(** X9: an error reported by the sink is the outcome of the parse. When
    the scan reaches a lone flag [-x] and the sink rejects it with a
    message, parse returns failure with that message, the extras are
    dropped and no later element is scanned. *)
Theorem sink_rejection_is_terminal ctx argc argv s x o d' m :
  argi s < argc ->
  argv_at argv (argi s) = Some (String "-" (String x "")) ->
  x <> "-"%char ->
  find_short x (options ctx) = Some o ->
  requiresArg o = false ->
  _xopt_set (e_data (mem s)) o None = (d', Some m) ->
  run ctx argc argv s
  = Returns {| ret := 0; inextras := None;
               out := {| e_data := d';
                         e_calls := (e_calls (mem s) ++ [(o, None)])%list;
                         e_err := Some m |} |}.
Proof.
  intros Hlt Hat Hx Hfind Hreq Hsink.
  destruct (run_positive ctx argc argv s Hlt) as [n Hn].
  rewrite (run_unfold _ _ _ _ _ Hn).
  pose proof (parse_arg_single_flag ctx argc argv (argi s) (mem s) x o
                Hat Hx Hfind Hreq) as Hparse.
  assert (Hset : do_set (mem s) o None
                 = {| e_data := d';
                      e_calls := (e_calls (mem s) ++ [(o, None)])%list;
                      e_err := Some m |})
    by (unfold call_set; rewrite Hsink; reflexivity).
  rewrite Hset in Hparse.
  rewrite (loop_step_error n _ _ _ _ _ _ _ m Hlt Hparse eq_refl).
  reflexivity.
Qed.

(** *** Failing to grow the buffer *)

Lemma loop_grow_fails fuel ctx argc argv s tok b :
  argi s < argc ->
  argv_at argv (argi s) = Some tok ->
  positional tok ->
  e_err (mem s) = None ->
  extras s = Some b ->
  extrasCount s = extrasCapac s ->
  alloc_ok (extrasCapac s + EXTRAS_INIT) = false ->
  loop (S fuel) ctx argc argv s
  = Returns {| argi := argi s; extrasCount := extrasCount s;
               extrasCapac := extrasCapac s + EXTRAS_INIT; extras := None;
               mem := set_err (mem s) "could not realloc arguments array" |}.
Proof.
  intros Hlt Hat Htok Herr Hb Hfull Hfail.
  rewrite loop_S by exact Hlt.
  rewrite (parse_arg_positional _ _ _ _ _ _ Hat Htok).
  cbn [mbind outcome_bind]. rewrite Herr.
  rewrite bool_decide_eq_false_2 by (intros [? ?]; discriminate).
  unfold _xopt_assert_increment. cbn [argi extrasCount extrasCapac extras mem].
  rewrite Hfull, Z.eqb_refl, Hb. unfold realloc. rewrite Hfail.
  cbn [mbind outcome_bind mem e_err _xopt_set_err].
  rewrite bool_decide_eq_true_2 by eauto. reflexivity.
Qed.

(** The scan of an argument vector with more than [EXTRAS_INIT]
    positional tokens reaches the next one with a full buffer. *)
Lemma scan_reaches_capacity ctx argv d :
  let skip := (if has_flag ctx XOPT_CTX_KEEPFIRST then 0 else 1)%nat in
  let argc := Z.of_nat (List.length argv) in
  0 < sizeof_ptr ->
  alloc_ok (sizeof_ptr * EXTRAS_INIT) = true ->
  Forall positional (drop skip argv) ->
  EXTRAS_INIT < Z.of_nat (List.length (drop skip argv)) ->
  exists fuel s tok b,
    parse ctx argc argv d
    = (s' ← loop (S fuel) ctx argc argv s; Returns (xopt_end s'))
    /\ argi s < argc
    /\ argv_at argv (argi s) = Some tok
    /\ positional tok
    /\ mem s = {| e_data := d; e_calls := []; e_err := None |}
    /\ extras s = Some b
    /\ extrasCount s = EXTRAS_INIT
    /\ extrasCapac s = EXTRAS_INIT.
Proof.
  intros skip argc Hp Hok Hpos Hlen.
  assert (Hskip : (skip <= List.length argv)%nat)
    by (rewrite length_drop in Hlen; unfold EXTRAS_INIT in Hlen; lia).
  rewrite (parse_unfold _ _ _ _ Hp Hok), first_index. fold skip.
  set (s0 := {| argi := Z.of_nat skip |}).
  set (n := Z.to_nat EXTRAS_INIT).
  assert (Hsplit : drop skip argv = (take n (drop skip argv) ++ drop n (drop skip argv))%list)
    by (symmetry; apply take_drop).
  destruct (drop n (drop skip argv)) as [|tok post] eqn:Hpost.
  { apply (f_equal (@List.length _)) in Hpost.
    rewrite !length_drop in Hpost. rewrite length_drop in Hlen.
    subst n. unfold EXTRAS_INIT in *. cbn [List.length] in Hpost. lia. }
  assert (Hfirst : List.length (take n (drop skip argv)) = n).
  { rewrite length_take. subst n. unfold EXTRAS_INIT in *. lia. }
  assert (Hargv : argv = (take skip argv ++ take n (drop skip argv) ++ tok :: post)%list).
  { rewrite <- Hsplit. symmetry. apply take_drop. }
  rewrite Hsplit in Hpos. apply Forall_app in Hpos. destruct Hpos as [Hpos1 Hpos2].
  apply Forall_cons in Hpos2. destruct Hpos2 as [Htok _].
  subst argc.
  rewrite (run_unfold _ _ _ s0 (List.length (take n (drop skip argv)) + S (List.length post))).
  2:{ subst s0. cbn [argi]. rewrite Hargv at 1.
      rewrite !length_app, length_take. cbn [List.length]. lia. }
  destruct (loop_positionals ctx (take n (drop skip argv)) Hpos1 (take skip argv)
              (tok :: post) (S (List.length post)) s0
              (replicate (Z.to_nat EXTRAS_INIT) None) 0%nat)
    as (b' & Hloop & Hlen' & _);
    subst s0; cbn [argi extrasCount extrasCapac extras mem e_err].
  - rewrite length_take. f_equal. lia.
  - reflexivity.
  - reflexivity.
  - reflexivity.
  - rewrite Hfirst. subst n. unfold EXTRAS_INIT. lia.
  - rewrite length_replicate. unfold EXTRAS_INIT. lia.
  - rewrite <- Hargv in Hloop. cbn [argi Nat.add] in Hloop.
    eexists _, _, tok, b'. split; [rewrite Hloop; reflexivity |].
    cbn [argi extrasCount extrasCapac extras mem].
    split; [| split; [| split; [exact Htok | split; [reflexivity | split; [reflexivity | split; [| reflexivity]]]]]].
    + rewrite length_app, !length_take, length_drop.
      rewrite length_drop in Hlen. subst n. unfold EXTRAS_INIT in *. lia.
    + rewrite Hargv at 1. rewrite app_assoc. apply argv_at_middle.
    + rewrite Hfirst. subst n. unfold EXTRAS_INIT. reflexivity.
Qed.

(** X10: when the allocator refuses to grow the buffer, parse fails
    cleanly. On an argument vector with more than [EXTRAS_INIT]
    positional tokens after the skipped element, a refused [realloc]
    makes parse return failure with "could not realloc arguments array":
    count 0, null extras, the sink never called. *)
Theorem growth_failure_reported ctx argv d :
  let skip := (if has_flag ctx XOPT_CTX_KEEPFIRST then 0 else 1)%nat in
  0 < sizeof_ptr ->
  alloc_ok (sizeof_ptr * EXTRAS_INIT) = true ->
  alloc_ok (EXTRAS_INIT + EXTRAS_INIT) = false ->
  Forall positional (drop skip argv) ->
  EXTRAS_INIT < Z.of_nat (List.length (drop skip argv)) ->
  parse ctx (Z.of_nat (List.length argv)) argv d
  = Returns {| ret := 0; inextras := None;
               out := {| e_data := d; e_calls := [];
                         e_err := Some "could not realloc arguments array" |} |}.
Proof.
  intros skip Hp Hok Hfail Hpos Hlen.
  destruct (scan_reaches_capacity ctx argv d Hp Hok Hpos Hlen)
    as (fuel & s & tok & b & -> & Hlt & Hat & Htok & Hmem & Hb & Hcount & Hcap).
  rewrite (loop_grow_fails fuel ctx _ argv s tok b Hlt Hat Htok);
    [ | rewrite Hmem; reflexivity | exact Hb | congruence
      | rewrite Hcap; exact Hfail ].
  cbn [mbind outcome_bind]. unfold xopt_end.
  cbn [mem e_err _xopt_set_err]. rewrite Hmem. reflexivity.
Qed.

(** *** What a successful scan has collected *)

Lemma scanned_start skip argv : scanned skip argv (Z.of_nat skip) = [].
Proof.
  unfold scanned. apply drop_ge. rewrite length_take. lia.
Qed.

Lemma scanned_all skip argv i :
  Z.of_nat (List.length argv) <= i -> scanned skip argv i = drop skip argv.
Proof. intros H. unfold scanned. rewrite take_ge by lia. reflexivity. Qed.

Lemma argv_at_lookup argv i tok :
  argv_at argv i = Some tok -> 0 <= i /\ argv !! Z.to_nat i = Some tok.
Proof.
  unfold argv_at. destruct (Z.ltb_spec i 0); [discriminate |]. auto.
Qed.

(** Going past the token at [i], alone or with the closing null pointer. *)
Lemma scanned_step skip argv i i' tok :
  Z.of_nat skip <= i ->
  argv_at argv i = Some tok ->
  i' = i \/ (i' = i + 1 /\ Z.of_nat (List.length argv) = i + 1) ->
  scanned skip argv (i' + 1) = (scanned skip argv i ++ [tok])%list.
Proof.
  intros Hskip Hat Hpos. apply argv_at_lookup in Hat. destruct Hat as [Hi Hat].
  pose proof (lookup_lt_Some _ _ _ Hat) as Hlt.
  assert (Hone : scanned skip argv (i + 1) = (scanned skip argv i ++ [tok])%list).
  { unfold scanned. replace (Z.to_nat (i + 1)) with (S (Z.to_nat i)) by lia.
    rewrite (take_S_r _ _ _ Hat).
    apply drop_app_le. rewrite length_take. lia. }
  destruct Hpos as [-> | [-> Hlen]]; [exact Hone |].
  rewrite <- Hone. rewrite !scanned_all by lia. reflexivity.
Qed.

Lemma filter_nil_none (l : list string) :
  List.filter is_positional l = [] -> Forall (fun t => is_positional t = false) l.
Proof.
  induction l as [|t l IH]; cbn [List.filter]; [constructor |].
  destruct (is_positional t) eqn:Ht; [discriminate |].
  intros H. constructor; [exact Ht | exact (IH H)].
Qed.

Lemma options_first_start : options_first [].
Proof. exists [], []. split; [reflexivity | split; constructor]. Qed.

Lemma options_first_positional l tok :
  options_first l -> is_positional tok = true -> options_first (l ++ [tok]).
Proof.
  intros (o & p0 & -> & Ho & Hp0) Htok. exists o, (p0 ++ [tok])%list.
  split; [rewrite app_assoc; reflexivity |]. split; [exact Ho |].
  apply Forall_app. split; [exact Hp0 | constructor; [exact Htok | constructor]].
Qed.

Lemma options_first_option l tok :
  List.filter is_positional l = [] -> is_positional tok = false ->
  options_first (l ++ [tok]).
Proof.
  intros Hnone Htok. exists (l ++ [tok])%list, [].
  split; [rewrite app_nil_r; reflexivity |]. split; [| constructor].
  apply Forall_app. split; [apply filter_nil_none; exact Hnone |].
  constructor; [exact Htok | constructor].
Qed.

Lemma realloc_take b bytes b' c :
  realloc sizeof_ptr alloc_ok b bytes = Some b' ->
  (c <= List.length b)%nat -> (c <= List.length b')%nat ->
  take c b' = take c b.
Proof.
  unfold realloc. destruct (alloc_ok bytes); [| discriminate].
  intros [= <-] Hb Hb'.
  rewrite length_app, length_take, length_replicate in Hb'.
  rewrite take_app_le by (rewrite length_take; lia).
  rewrite take_take. f_equal. lia.
Qed.

Lemma loop_collects ctx argv skip fuel s s' :
  e_err (mem s) = None ->
  collected skip argv s ->
  (has_flag ctx XOPT_CTX_POSIXMEHARDER = true ->
   options_first (scanned skip argv (argi s))) ->
  loop fuel ctx (Z.of_nat (List.length argv)) argv s = Returns s' ->
  e_err (mem s') = None ->
  Z.of_nat (List.length argv) <= argi s'
  /\ collected skip argv s'
  /\ (has_flag ctx XOPT_CTX_POSIXMEHARDER = true ->
      options_first (scanned skip argv (argi s'))).
Proof.
  revert s. induction fuel as [|fuel IH]; intros s Herr Hcol Hord Hloop Hfinal.
  - cbn [xopt_loop] in Hloop.
    destruct (Z.leb_spec (Z.of_nat (List.length argv)) (argi s)); [| discriminate].
    injection Hloop as <-. auto.
  - destruct (Z.le_gt_cases (Z.of_nat (List.length argv)) (argi s)) as [Hge|Hlt].
    { rewrite loop_exit in Hloop by lia. injection Hloop as <-. auto. }
    destruct Hcol as (Hskip & b & c & Hb & Hc & Hcb & Htake).
    destruct (argv_at_in_range argv (argi s)) as [tok Hat]; [lia |].
    rewrite loop_S in Hloop by lia.
    destruct (is_positional tok) eqn:Htok.
    + (* a positional token *)
      rewrite (parse_arg_positional _ _ _ _ _ _ Hat) in Hloop
        by (apply is_positional_true; exact Htok).
      cbn [mbind outcome_bind] in Hloop. rewrite Herr in Hloop.
      rewrite bool_decide_eq_false_2 in Hloop by (intros [? ?]; discriminate).
      match type of Hloop with context [assert_increment ?s1] =>
        destruct (assert_increment_cases s1) as [Hinc|(s2 & Hinc & Hi & Hn & Hmem)] end;
        rewrite Hinc in Hloop; cbn [mbind outcome_bind] in Hloop; [discriminate |].
      cbn [argi extrasCount mem extras extrasCapac] in Hi, Hn, Hmem.
      case_bool_decide as He2.
      { injection Hloop as <-. rewrite Hfinal in He2.
        destruct He2 as [? ?]; discriminate. }
      apply not_is_Some_None in He2.
      destruct (Hmem He2) as [Hmem2 Hgrow].
      destruct (extras s2) as [b2|] eqn:Hb2; [| discriminate].
      destruct (store b2 (extrasCount s2) (argv_at argv (argi s2))) as [b3| |] eqn:Hst;
        cbn [mbind outcome_bind] in Hloop; try discriminate.
      apply store_returns in Hst. destruct Hst as [Hin ->].
      rewrite Hn, Hc in Hin.
      assert (Hkeep : take c b2 = take c b).
      { destruct Hgrow as [[_ ->] | (_ & b0 & b1 & Hb0 & Hre & Hb1)].
        - cbn [extras] in Hb2. congruence.
        - rewrite Hb in Hb0. injection Hb0 as <-.
          injection Hb1 as ->.
          apply (realloc_take _ _ _ _ Hre); lia. }
      eapply IH; [| | | exact Hloop | exact Hfinal]; unfold collected; cbn [argi mem].
      * exact He2.
      * split; [lia |]. cbn [extras extrasCount argi].
        eexists _, (S c). split; [reflexivity |]. rewrite Hn, Hc, Hi, Nat2Z.id.
        split; [lia |]. rewrite length_insert. split; [lia |].
        rewrite (scanned_step skip argv (argi s) (argi s) tok Hskip Hat) by auto.
        rewrite List.filter_app. cbn [List.filter]. rewrite Htok.
        rewrite fmap_app, <- Htake, <- Hkeep. cbn [fmap list_fmap].
        rewrite Hat. apply take_S_insert. lia.
      * intros Hposix. rewrite Hi.
        rewrite (scanned_step skip argv (argi s) (argi s) tok Hskip Hat) by auto.
        apply options_first_positional; [exact (Hord Hposix) | exact Htok].
    + (* an option token *)
      destruct (parse_arg ctx (Z.of_nat (List.length argv)) argv (argi s) (mem s))
        as [[[isx i'] e']| |] eqn:Hparse;
        cbn [mbind outcome_bind] in Hloop; try discriminate.
      pose proof (parse_arg_class _ _ _ _ _ _ _ _ _ Hat Hparse) as Hisx.
      pose proof (parse_arg_position _ _ _ _ _ _ _ Hparse) as Hpos.
      rewrite Htok in Hisx. subst isx.
      case_bool_decide as He'.
      { injection Hloop as <-. cbn [mem] in Hfinal. rewrite Hfinal in He'.
        destruct He' as [? ?]; discriminate. }
      apply not_is_Some_None in He'.
      cbn [argi extrasCount extrasCapac extras mem] in Hloop.
      destruct (has_flag ctx XOPT_CTX_POSIXMEHARDER && negb (extrasCount s =? 0))
        eqn:Hposix.
      { injection Hloop as <-. cbn in Hfinal. discriminate. }
      pose proof (scanned_step skip argv (argi s) i' tok Hskip Hat Hpos) as Hstep.
      eapply IH; [| | | exact Hloop | exact Hfinal]; unfold collected; cbn [argi mem].
      * exact He'.
      * split; [lia |]. cbn [extras extrasCount argi].
        exists b, c. split; [exact Hb |]. split; [exact Hc |]. split; [exact Hcb |].
        rewrite Hstep, List.filter_app. cbn [List.filter]. rewrite Htok, app_nil_r.
        exact Htake.
      * intros Hflag. rewrite Hflag in Hposix. cbn [andb] in Hposix.
        apply negb_false_iff, Z.eqb_eq in Hposix.
        assert (c = 0%nat) by lia. subst c. cbn [take] in Htake.
        symmetry in Htake. apply fmap_nil_inv in Htake.
        rewrite Hstep. apply options_first_option; assumption.
Qed.

(** The scan from its first state, when it ends without an error. *)
Lemma parse_collects ctx argv d r :
  let skip := (if has_flag ctx XOPT_CTX_KEEPFIRST then 0 else 1)%nat in
  parse ctx (Z.of_nat (List.length argv)) argv d = Returns r ->
  e_err (out r) = None ->
  exists s',
    r = {| ret := extrasCount s'; inextras := extras s'; out := mem s' |}
    /\ collected skip argv s'
    /\ scanned skip argv (argi s') = drop skip argv
    /\ (has_flag ctx XOPT_CTX_POSIXMEHARDER = true ->
        options_first (drop skip argv)).
Proof.
  intros skip Hr Hnone. unfold xopt_parse in Hr.
  destruct (malloc sizeof_ptr alloc_ok (sizeof_ptr * EXTRAS_INIT)) as [b0|].
  - rewrite first_index in Hr. fold skip in Hr. unfold xopt_run in Hr.
    match type of Hr with context [xopt_loop _ _ _ _ _ ?n ctx _ argv ?s0] =>
      destruct (loop n ctx (Z.of_nat (List.length argv)) argv s0) as [s'| |] eqn:Hloop end;
      cbn [mbind outcome_bind] in Hr; try discriminate.
    injection Hr as <-. unfold xopt_end in *.
    destruct (e_err (mem s')) eqn:Herr'; [cbn in Hnone; congruence |].
    apply (loop_collects ctx argv skip) in Hloop; cbn [argi mem e_err]; auto.
    + destruct Hloop as (Hend & Hcol & Hord).
      exists s'. split; [reflexivity |]. split; [exact Hcol |].
      split; [apply scanned_all; exact Hend |].
      intros Hposix. rewrite <- (scanned_all skip argv (argi s')) by exact Hend.
      exact (Hord Hposix).
    + unfold collected. cbn [extras extrasCount argi]. split; [lia |].
      exists b0, 0%nat. rewrite scanned_start.
      split; [reflexivity |]. split; [reflexivity |]. split; [lia | reflexivity].
    + intros _. rewrite scanned_start. apply options_first_start.
  - injection Hr as <-. cbn in Hnone. discriminate.
Qed.

(** X3: what a successful parse returns. Whatever the options, flags and
    sink, when parse reports no error the extras it returns are exactly
    the tokens without a leading dash among the scanned elements, in the
    order of the argument vector, and the returned count is their
    number. *)
Theorem success_extras_are_positionals ctx argv d r :
  let skip := (if has_flag ctx XOPT_CTX_KEEPFIRST then 0 else 1)%nat in
  parse ctx (Z.of_nat (List.length argv)) argv d = Returns r ->
  e_err (out r) = None ->
  extras_of r = Some (Some <$> List.filter is_positional (drop skip argv))
  /\ ret r = Z.of_nat (List.length (List.filter is_positional (drop skip argv))).
Proof.
  intros skip Hr Hnone. subst skip.
  destruct (parse_collects ctx argv d r Hr Hnone)
    as (s' & -> & (_ & b & c & Hb & Hc & Hcb & Htake) & Hall & _).
  rewrite Hall in Htake. unfold extras_of. cbn [ret inextras].
  rewrite Hb, Hc, Nat2Z.id, Htake. split; [reflexivity |].
  apply (f_equal (@List.length _)) in Htake.
  rewrite length_take, length_fmap in Htake. rewrite <- Htake. f_equal. lia.
Qed.

(** X4: under posix-strict-ordering a parse succeeds only on an argument
    vector whose scanned elements are option tokens first and positional
    tokens last: once a positional token has been seen, any later token
    with a leading dash, long ones included, makes the parse fail. *)
Theorem posix_success_is_ordered ctx argv d r :
  let skip := (if has_flag ctx XOPT_CTX_KEEPFIRST then 0 else 1)%nat in
  has_flag ctx XOPT_CTX_POSIXMEHARDER = true ->
  parse ctx (Z.of_nat (List.length argv)) argv d = Returns r ->
  e_err (out r) = None ->
  options_first (drop skip argv).
Proof.
  intros skip Hposix Hr Hnone.
  destruct (parse_collects ctx argv d r Hr Hnone) as (s' & _ & _ & _ & Hord).
  exact (Hord Hposix).
Qed.

(** *** Who calls the sink *)

Lemma assert_increment_mem s s2 :
  assert_increment s = Returns s2 ->
  e_calls (mem s2) = e_calls (mem s) /\ e_data (mem s2) = e_data (mem s).
Proof.
  unfold _xopt_assert_increment.
  destruct (extrasCount s =? extrasCapac s).
  - destruct (extras s) as [b|]; [| discriminate].
    destruct (realloc _ _ _ _); intros [= <-]; split; reflexivity.
  - intros [= <-]. split; reflexivity.
Qed.

Lemma loop_no_short ctx argc argv fuel s s' :
  Forall (fun tok => _xopt_get_size tok <> 1) argv ->
  loop fuel ctx argc argv s = Returns s' ->
  e_calls (mem s') = e_calls (mem s) /\ e_data (mem s') = e_data (mem s).
Proof.
  intros Hargv. revert s.
  induction fuel as [|fuel IH]; intros s Hloop.
  - cbn [xopt_loop] in Hloop. destruct (argc <=? argi s); [| discriminate].
    injection Hloop as <-. split; reflexivity.
  - destruct (Z.le_gt_cases argc (argi s)) as [Hge|Hlt].
    { rewrite loop_exit in Hloop by lia. injection Hloop as <-. split; reflexivity. }
    rewrite loop_S in Hloop by lia.
    destruct (argv_at argv (argi s)) as [tok|] eqn:Hat.
    2:{ unfold _xopt_parse_arg in Hloop. rewrite Hat in Hloop. discriminate. }
    assert (Hsize : _xopt_get_size tok <> 1).
    { apply argv_at_lookup in Hat. destruct Hat as [_ Hat].
      exact (Forall_lookup_1 _ _ _ _ Hargv Hat). }
    rewrite (parse_arg_not_short _ _ _ _ _ _ Hat Hsize) in Hloop.
    cbn [mbind outcome_bind] in Hloop.
    case_bool_decide; [injection Hloop as <-; split; reflexivity |].
    destruct (is_positional tok).
    + match type of Hloop with context [assert_increment ?s1] =>
        destruct (assert_increment s1) as [s2| |] eqn:Hinc end;
        cbn [mbind outcome_bind] in Hloop; try discriminate.
      apply assert_increment_mem in Hinc. cbn [mem] in Hinc.
      destruct Hinc as [Hcalls Hdata].
      case_bool_decide; [injection Hloop as <-; split; assumption |].
      destruct (extras s2); [| discriminate].
      destruct (store _ _ _); cbn [mbind outcome_bind] in Hloop; try discriminate.
      apply IH in Hloop. cbn [mem] in Hloop.
      rewrite <- Hcalls, <- Hdata. exact Hloop.
    + destruct (_ && _).
      * injection Hloop as <-. split; reflexivity.
      * apply IH in Hloop. exact Hloop.
Qed.

(** X5: the sink is called for short-form tokens only. On an argument
    vector without a token of exactly one leading dash (positional and
    long tokens only), whatever parse returns, the sink has not been
    called and the destination is as the caller passed it. *)
Theorem no_short_tokens_no_sink ctx argc argv d r :
  Forall (fun tok => _xopt_get_size tok <> 1) argv ->
  parse ctx argc argv d = Returns r ->
  e_calls (out r) = [] /\ e_data (out r) = d.
Proof.
  intros Hargv Hr. unfold xopt_parse in Hr.
  destruct (malloc sizeof_ptr alloc_ok (sizeof_ptr * EXTRAS_INIT)) as [b0|].
  - unfold xopt_run in Hr.
    match type of Hr with context [xopt_loop _ _ _ _ _ ?n ctx argc argv ?s0] =>
      destruct (loop n ctx argc argv s0) as [s'| |] eqn:Hloop end;
      cbn [mbind outcome_bind] in Hr; try discriminate.
    injection Hr as <-.
    apply (loop_no_short _ _ _ _ _ _ Hargv) in Hloop. cbn [mem e_calls e_data] in Hloop.
    unfold xopt_end. destruct (e_err (mem s')); exact Hloop.
  - injection Hr as <-. split; reflexivity.
Qed.

(** *** A value-requiring option before the last character *)

(** X12: the one place where the expansion loop looks for a value. In
    [-cb], with [c] requiring a value and [b] a flag, the value test runs
    for [c], the last character but one. If an element follows the token
    the scanner reports "missing option value: -c" and still calls the
    sink for [b]; if the token is the last element the sink is called for
    [c] with the closing null pointer of the argument vector, the scan
    position moves past the end, and the sink is then called for [b]. *)
Theorem value_option_before_last ctx argv i e c b oc ob :
  let argc := Z.of_nat (List.length argv) in
  argv_at argv i = Some (String "-" (String c (String b ""))) ->
  c <> "-"%char ->
  has_flag ctx XOPT_CTX_NOCONDENSE = false ->
  has_flag ctx XOPT_CTX_SLOPPYSHORTS = false ->
  find_short c (options ctx) = Some oc -> requiresArg oc = true ->
  find_short b (options ctx) = Some ob -> requiresArg ob = false ->
  parse_arg ctx argc argv i e
  = if argc =? i + 1
    then Returns (false, i + 1, do_set (do_set e oc None) ob None)
    else Returns (false, i,
                  do_set (set_err e (fmt_c "missing option value: -" (shortArg oc)))
                    ob None).
Proof.
  intros argc Hat Hc Hnc Hsl Hfc Hrc Hfb Hrb.
  rewrite (parse_arg_short _ _ _ _ _ _ Hat Hc), Hnc, Hsl.
  rewrite andb_false_r. cbn [andb negb strlen String.length].
  rewrite (parse_all_value_before_last _ _ _ _ _ _ _ _ Hfc Hrc).
  destruct (Z.eqb_spec argc (i + 1)) as [Hlast|Hmore].
  - rewrite <- Hlast. unfold argc at 2. rewrite argv_at_end.
    rewrite (parse_all_flag _ _ _ _ _ _ _ _ _ Hfb Hrb). reflexivity.
  - rewrite (parse_all_flag _ _ _ _ _ _ _ _ _ Hfb Hrb). reflexivity.
Qed.

End ScannerFacts.

(** ** Runs of the scanner on concrete argument vectors

    The sink and the destination stay arbitrary; pointers take 8 bytes
    and every allocation succeeds. *)

Section Runs.

Variable data : Type.
Variable sink : data -> xoptOption -> option string -> data * option string.
Variable null_text : string.
Variable d : data.

Local Abbreviation parse8 := (xopt_parse data sink 8 always null_text).

(** C1 (the code departs from the claim): on [prog; -abc; val] with [a],
    [b] flags and [c] requiring a value, the sink is called for [a] and
    [b] with the absent value, but [val] is never bound to [c]: when the
    loop body runs for the last character [length] is 0, the test
    [length == 1] fails, and parse fails with "combined short option
    requiring value not last: -c". *)
Theorem cluster_abc_value_last_rejected :
  exists e,
    parse8 (mk_ctx 0 [flag_opt "a"; flag_opt "b"; value_opt "c"])
      3 ["prog"; "-abc"; "val"] d
    = Returns {| ret := 0; inextras := None; out := e |}
    /\ e_calls e = [(flag_opt "a", None); (flag_opt "b", None)]
    /\ e_err e = Some "combined short option requiring value not last: -c".
Proof.
  eexists. split.
  - eapply parse_first_token_error;
      [ lia | reflexivity | reflexivity | lia
      | apply (cluster_flags_then_value data sink null_text _ _ _ _ _
                 "a" "b" "c" (flag_opt "a") (flag_opt "b") (value_opt "c"));
        (reflexivity || discriminate)
      | reflexivity ].
  - cbn [e_calls e_err _xopt_set_err]. rewrite !call_set_calls.
    split; reflexivity.
Qed.

(** C2 (the code departs from the claim): a value-requiring option that
    is the last character of its cluster never gets a value and is never
    reported as missing one. With a following element ([prog; -c; val])
    and without one ([prog; -c]) parse fails alike with "combined short
    option requiring value not last: -c", and the sink is not called. *)
Theorem last_value_option_never_bound :
  let failed :=
    Returns {| ret := 0; inextras := None;
               out := {| e_data := d; e_calls := [];
                         e_err := Some "combined short option requiring value not last: -c" |} |} in
  parse8 (mk_ctx 0 [value_opt "c"]) 3 ["prog"; "-c"; "val"] d = failed
  /\ parse8 (mk_ctx 0 [value_opt "c"]) 2 ["prog"; "-c"] d = failed.
Proof. split; vm_compute; reflexivity. Qed.

(** C3 (the code departs from the claim): on [prog; -abc; next] with [a]
    and [b] requiring a value and [c] a flag, the loop does not stop at
    the error set for [a]: the message is overwritten by the one for [b]
    and the sink is still called for [c]. Parse fails with "missing
    option value: -b" (or with the sink's own message for [c]), not with
    the combined-ordering error. *)
Theorem cluster_abc_first_error_overwritten :
  exists e,
    parse8 (mk_ctx 0 [value_opt "a"; value_opt "b"; flag_opt "c"])
      3 ["prog"; "-abc"; "next"] d
    = Returns {| ret := 0; inextras := None; out := e |}
    /\ e_calls e = [(flag_opt "c", None)]
    /\ e_err e = Some match snd (sink d (flag_opt "c") None) with
                      | Some m => m
                      | None => "missing option value: -b"
                      end.
Proof.
  eexists. split.
  - eapply (parse_first_token_error data sink 8 always null_text _ _ _ _ _ _ _
              match snd (sink d (flag_opt "c") None) with
              | Some m => m
              | None => "missing option value: -b"
              end);
      [ lia | reflexivity | reflexivity | lia
      | apply (cluster_value_value_flag data sink null_text _ _ _ _ _
                 "a" "b" "c" (value_opt "a") (value_opt "b") (flag_opt "c"));
        (reflexivity || discriminate)
      | ].
    rewrite call_set_err. cbn [e_err e_data _xopt_set_err].
    destruct (snd (sink d (flag_opt "c") None)); reflexivity.
  - rewrite call_set_calls, call_set_err. cbn [e_calls e_err e_data _xopt_set_err].
    split; [reflexivity |].
    destruct (snd (sink d (flag_opt "c") None)); reflexivity.
Qed.

(** C5 (the code departs from the claim): under strict-unknown-options
    the message does not name the unknown character. On [prog; -qx],
    where only [x] is in the table, parse fails with "invalid argument:
    -x": the format argument is [arg[0]] read after [arg++]. When the
    unknown character ends the cluster ([prog; -q]) that is the
    terminator and the message names nothing. *)
Theorem strict_unknown_names_next_character :
  parse8 (mk_ctx XOPT_CTX_STRICT [flag_opt "x"]) 2 ["prog"; "-qx"] d
  = Returns {| ret := 0; inextras := None;
               out := {| e_data := d; e_calls := [];
                         e_err := Some "invalid argument: -x" |} |}
  /\ parse8 (mk_ctx XOPT_CTX_STRICT [flag_opt "x"]) 2 ["prog"; "-q"] d
     = Returns {| ret := 0; inextras := None;
                  out := {| e_data := d; e_calls := [];
                            e_err := Some "invalid argument: -" |} |}.
Proof. split; vm_compute; reflexivity. Qed.

(** C8 (the code departs from the claim): eleven positional tokens. When
    the eleventh arrives the buffer is full; [_xopt_assert_increment]
    asks [realloc] for 20 bytes instead of 20 pointers, the block shrinks
    and the store [extras[10]] lies outside it: the behaviour of the
    call is undefined, with 8-byte and with 4-byte pointers alike. *)
Theorem eleven_positionals_overflow :
  let argv := ["prog"; "f1"; "f2"; "f3"; "f4"; "f5"; "f6"; "f7"; "f8"; "f9";
               "f10"; "f11"] in
  xopt_parse data sink 8 always null_text (mk_ctx 0 []) 12 argv d = Undefined
  /\ xopt_parse data sink 4 always null_text (mk_ctx 0 []) 12 argv d = Undefined.
Proof. split; vm_compute; reflexivity. Qed.

(** C9 (the code departs from the claim): not every parse call yields
    one of the two outcomes, and the first error does not end the scan.
    On eleven positional tokens the store of the eleventh extra lies
    outside the block [realloc] returned and the call has no defined
    outcome, neither a success nor a failure. On [prog; -abc] with [a]
    requiring a value and [b], [c] flags, the error for [a] is set first
    and the sink is still called for [b] and for [c] before parse
    returns its failure. *)
Theorem parse_call_without_outcome :
  xopt_parse data sink 8 always null_text (mk_ctx XOPT_CTX_KEEPFIRST [])
    11 ["a0"; "a1"; "a2"; "a3"; "a4"; "a5"; "a6"; "a7"; "a8"; "a9"; "a10"] d
  = Undefined
  /\ exists e,
       parse8 (mk_ctx 0 [value_opt "a"; flag_opt "b"; flag_opt "c"])
         2 ["prog"; "-abc"] d
       = Returns {| ret := 0; inextras := None; out := e |}
       /\ e_calls e = [(flag_opt "b", None); (flag_opt "c", None)].
Proof.
  split; [vm_compute; reflexivity |].
  eexists. split.
  - eapply (parse_first_token_error data sink 8 always null_text _ _ _ _ _ _ _
              match snd (sink (fst (sink d (flag_opt "b") None)) (flag_opt "c") None) with
              | Some m => m
              | None =>
                  match snd (sink d (flag_opt "b") None) with
                  | Some m => m
                  | None => "combined short option requiring value not last: -a"
                  end
              end);
      [ lia | reflexivity | reflexivity | lia
      | apply (cluster_value_then_flags data sink null_text _ _ _ _ _
                 "a" "b" "c" (value_opt "a") (flag_opt "b") (flag_opt "c"));
        (reflexivity || discriminate)
      | ].
    rewrite !call_set_err, call_set_data. cbn [e_err e_data _xopt_set_err].
    destruct (snd (sink (fst (sink d (flag_opt "b") None)) (flag_opt "c") None));
      [reflexivity |].
    destruct (snd (sink d (flag_opt "b") None)); reflexivity.
  - rewrite !call_set_calls. reflexivity.
Qed.

End Runs.

(** ** The confirmed claims at concrete inputs *)

Lemma posix_ordering_after_positional_witness :
  xopt_parse unit accept_all 8 always "(null)"
    (mk_ctx XOPT_CTX_POSIXMEHARDER [flag_opt "x"]) 3 ["prog"; "file1"; "-x"] tt
  = Returns {| ret := 0; inextras := None;
               out := {| e_data := tt; e_calls := [(flag_opt "x", None)];
                         e_err := Some "options cannot be specified after arguments: -x" |} |}
  /\ exists r,
       xopt_parse unit accept_all 8 always "(null)"
         (mk_ctx 0 [flag_opt "x"]) 3 ["prog"; "file1"; "-x"] tt
       = Returns r
       /\ ret r = 1
       /\ extras_of r = Some [Some "file1"]
       /\ out r = {| e_data := tt; e_calls := [(flag_opt "x", None)];
                     e_err := None |}.
Proof.
  split.
  - apply (posix_ordering_after_positional unit accept_all 8 always "(null)"
             (mk_ctx XOPT_CTX_POSIXMEHARDER [flag_opt "x"])
             "prog" "file1" "x" (flag_opt "x") tt);
      first [lia | reflexivity | discriminate].
  - apply (posix_ordering_after_positional unit accept_all 8 always "(null)"
             (mk_ctx 0 [flag_opt "x"])
             "prog" "file1" "x" (flag_opt "x") tt);
      first [lia | reflexivity | discriminate].
Defined.

Lemma no_combine_rejects_cluster_witness :
  xopt_run unit accept_all 8 always "(null)"
    (mk_ctx XOPT_CTX_NOCONDENSE [flag_opt "x"; flag_opt "y"]) 2 ["prog"; "-xy"]
    {| argi := 1; extrasCount := 0; extrasCapac := EXTRAS_INIT;
       extras := Some (replicate 10 None);
       mem := {| e_data := tt; e_calls := []; e_err := None |} |}
  = Returns {| ret := 0; inextras := None;
               out := {| e_data := tt; e_calls := [];
                         e_err := Some (errbuf_cut "short options cannot be combined: -xy") |} |}
  /\ errbuf_cut "short options cannot be combined: -xy"
     = "short options cannot be combined: -xy".
Proof.
  destruct (no_combine_rejects_cluster unit accept_all 8 always "(null)"
              (mk_ctx XOPT_CTX_NOCONDENSE [flag_opt "x"; flag_opt "y"])
              2 ["prog"; "-xy"]
              {| argi := 1; extrasCount := 0; extrasCapac := EXTRAS_INIT;
                 extras := Some (replicate 10 None);
                 mem := {| e_data := tt; e_calls := []; e_err := None |} |}
              "xy") as [Hrun Hfit];
    [ reflexivity | reflexivity | discriminate | simpl; lia
    | reflexivity | reflexivity | ].
  split; [exact Hrun | apply Hfit; simpl; lia].
Defined.


Lemma parse_outcome_exclusive_witness :
  exists r,
    xopt_parse unit accept_all 8 always "(null)"
      (mk_ctx 0 [flag_opt "x"]) 3 ["prog"; "-x"; "file1"] tt = Returns r
    /\ ((parse_success r /\ ~ parse_failure r)
        \/ (parse_failure r /\ ~ parse_success r)).
Proof.
  destruct (parse_outcome_exclusive unit accept_all 8 always "(null)"
              (mk_ctx 0 [flag_opt "x"]) 3 ["prog"; "-x"; "file1"] tt)
    as (_ & Hreturns & Houtcome & _).
  destruct Hreturns as [r Hr]; [lia | reflexivity | vm_compute; discriminate |].
  exists r. split; [exact Hr | apply Houtcome; exact Hr].
Defined.

Lemma long_token_is_inert_witness :
  let s := {| argi := 2; extrasCount := 1; extrasCapac := EXTRAS_INIT;
              extras := Some (<[0%nat := Some "file1"]> (replicate 10 None));
              mem := {| e_data := tt; e_calls := []; e_err := None |} |} in
  let msg := "options cannot be specified after arguments: --name=v" in
  _xopt_parse_arg unit accept_all "(null)"
    (mk_ctx XOPT_CTX_POSIXMEHARDER []) 3 ["prog"; "file1"; "--name=v"] 2 (mem s)
  = Returns (false, 2, mem s)
  /\ xopt_run unit accept_all 8 always "(null)"
       (mk_ctx XOPT_CTX_POSIXMEHARDER []) 3 ["prog"; "file1"; "--name=v"] s
     = Returns {| ret := 0; inextras := None;
                  out := {| e_data := tt; e_calls := [];
                            e_err := Some (errbuf_cut msg) |} |}
  /\ errbuf_cut msg = msg.
Proof.
  intros s msg.
  destruct (long_token_is_inert unit accept_all 8 always "(null)"
              (mk_ctx XOPT_CTX_POSIXMEHARDER []) 3 ["prog"; "file1"; "--name=v"]
              s "name=v" 0)
    as (Hparse & _ & Hposix & Hfit);
    [ simpl; lia | reflexivity | reflexivity | ].
  split; [exact Hparse |]. split.
  - apply Hposix; [reflexivity | simpl; lia].
  - apply Hfit. simpl. lia.
Defined.

(** ** The further properties at concrete inputs *)

Lemma positionals_within_capacity_witness :
  exists r,
    xopt_parse unit accept_all 8 always "(null)" (mk_ctx 0 [flag_opt "x"])
      3 ["prog"; "a"; "b"] tt = Returns r
    /\ ret r = 2
    /\ extras_of r = Some [Some "a"; Some "b"]
    /\ out r = {| e_data := tt; e_calls := []; e_err := None |}.
Proof.
  apply (positionals_within_capacity unit accept_all 8 always "(null)"
           (mk_ctx 0 [flag_opt "x"]) ["prog"; "a"; "b"] tt);
    first [ lia | reflexivity | simpl; lia
          | repeat constructor; discriminate ].
Defined.

Lemma positionals_beyond_capacity_witness :
  xopt_parse unit accept_all 8 always "(null)" (mk_ctx XOPT_CTX_KEEPFIRST [])
    11 ["0"; "1"; "2"; "3"; "4"; "5"; "6"; "7"; "8"; "9"; "10"] tt
  = Undefined.
Proof.
  apply (positionals_beyond_capacity unit accept_all 8 always "(null)"
           (mk_ctx XOPT_CTX_KEEPFIRST [])
           ["0"; "1"; "2"; "3"; "4"; "5"; "6"; "7"; "8"; "9"; "10"] tt);
    first [ lia | reflexivity | simpl; unfold EXTRAS_INIT; lia
          | repeat constructor; discriminate ].
Defined.

Lemma success_extras_are_positionals_witness :
  exists r,
    xopt_parse unit accept_all 8 always "(null)" (mk_ctx 0 [flag_opt "x"])
      5 ["prog"; "a"; "-x"; "--long"; "b"] tt = Returns r
    /\ extras_of r = Some [Some "a"; Some "b"]
    /\ ret r = 2.
Proof.
  eexists. split; [vm_compute; reflexivity |].
  apply (success_extras_are_positionals unit accept_all 8 always "(null)"
           (mk_ctx 0 [flag_opt "x"]) ["prog"; "a"; "-x"; "--long"; "b"] tt);
    vm_compute; reflexivity.
Defined.

Lemma posix_success_is_ordered_witness :
  options_first ["-x"; "--long"; "a"; "b"].
Proof.
  apply (posix_success_is_ordered unit accept_all 8 always "(null)"
           (mk_ctx XOPT_CTX_POSIXMEHARDER [flag_opt "x"])
           ["prog"; "-x"; "--long"; "a"; "b"] tt
           {| ret := 2;
              inextras := Some (<[1%nat := Some "b"]>
                                  (<[0%nat := Some "a"]> (replicate 10 None)));
              out := {| e_data := tt; e_calls := [(flag_opt "x", None)];
                        e_err := None |} |});
    vm_compute; reflexivity.
Defined.

Lemma no_short_tokens_no_sink_witness :
  exists r,
    xopt_parse unit accept_all 8 always "(null)"
      (mk_ctx XOPT_CTX_POSIXMEHARDER [flag_opt "x"])
      3 ["prog"; "a"; "--x"] tt = Returns r
    /\ e_calls (out r) = [] /\ e_data (out r) = tt.
Proof.
  eexists. split; [vm_compute; reflexivity |].
  apply (no_short_tokens_no_sink unit accept_all 8 always "(null)"
           (mk_ctx XOPT_CTX_POSIXMEHARDER [flag_opt "x"]) 3 ["prog"; "a"; "--x"] tt);
    [ repeat constructor; discriminate | vm_compute; reflexivity ].
Defined.

Lemma expansion_never_binds_value_witness :
  let e0 := {| e_data := tt; e_calls := []; e_err := None |} in
  let e1 := call_set unit accept_all
              (call_set unit accept_all e0 (value_opt "c") None)
              (flag_opt "b") None in
  (exists new,
     e_calls e1 = (e_calls e0 ++ new)%list
     /\ Forall (fun c : call => snd c = None) new)
  /\ (2 = 1 \/ (2 = 1 + 1 /\ 2 = 1 + 1)).
Proof.
  intros e0 e1.
  apply (expansion_never_binds_value unit accept_all "(null)"
           (mk_ctx 0 [value_opt "c"; flag_opt "b"]) ["prog"; "-cb"] 1 e0 false 2 e1);
    vm_compute; reflexivity.
Defined.

Lemma flag_cluster_expands_witness :
  let e0 := {| e_data := tt; e_calls := []; e_err := None |} in
  exists e',
    _xopt_parse_arg unit accept_all "(null)"
      (mk_ctx 0 [flag_opt "x"; flag_opt "y"; flag_opt "z"]) 2 ["prog"; "-xyqz"] 1 e0
    = Returns (false, 1, e')
    /\ e_calls e' = [(flag_opt "x", None); (flag_opt "y", None)]
    /\ ((forall d o, snd (accept_all d o None) = None) -> e_err e' = None).
Proof.
  intros e0.
  apply (flag_cluster_expands unit accept_all "(null)"
           (mk_ctx 0 [flag_opt "x"; flag_opt "y"; flag_opt "z"])
           2 ["prog"; "-xyqz"] 1 e0 "xyqz" [flag_opt "x"; flag_opt "y"]);
    first [reflexivity | discriminate].
Defined.

Lemma sloppy_unknown_first_witness :
  let e0 := {| e_data := tt; e_calls := []; e_err := None |} in
  _xopt_parse_arg unit accept_all "(null)"
    (mk_ctx (XOPT_CTX_SLOPPYSHORTS + XOPT_CTX_STRICT) [flag_opt "x"])
    2 ["prog"; "-qfile"] 1 e0
  = Returns (false, 1,
             {| e_data := tt; e_calls := [];
                e_err := Some "invalid argument: -q" |}).
Proof.
  intros e0.
  apply (sloppy_unknown_first unit accept_all "(null)"
           (mk_ctx (XOPT_CTX_SLOPPYSHORTS + XOPT_CTX_STRICT) [flag_opt "x"])
           2 ["prog"; "-qfile"] 1 e0 "q" "file");
    first [reflexivity | discriminate].
Defined.

Lemma sink_rejection_is_terminal_witness :
  xopt_run unit (reject_all "no") 8 always "(null)"
    (mk_ctx 0 [flag_opt "x"]) 3 ["prog"; "-x"; "a"]
    {| argi := 1; extrasCount := 0; extrasCapac := EXTRAS_INIT;
       extras := Some (replicate 10 None);
       mem := {| e_data := tt; e_calls := []; e_err := None |} |}
  = Returns {| ret := 0; inextras := None;
               out := {| e_data := tt; e_calls := [(flag_opt "x", None)];
                         e_err := Some "no" |} |}.
Proof.
  apply (sink_rejection_is_terminal unit (reject_all "no") 8 always "(null)"
           (mk_ctx 0 [flag_opt "x"]) 3 ["prog"; "-x"; "a"]
           {| argi := 1; extrasCount := 0; extrasCapac := EXTRAS_INIT;
              extras := Some (replicate 10 None);
              mem := {| e_data := tt; e_calls := []; e_err := None |} |}
           "x" (flag_opt "x") tt "no");
    first [reflexivity | discriminate | simpl; lia].
Defined.

Lemma growth_failure_reported_witness :
  xopt_parse unit accept_all 8 initial_only "(null)" (mk_ctx XOPT_CTX_KEEPFIRST [])
    11 ["0"; "1"; "2"; "3"; "4"; "5"; "6"; "7"; "8"; "9"; "10"] tt
  = Returns {| ret := 0; inextras := None;
               out := {| e_data := tt; e_calls := [];
                         e_err := Some "could not realloc arguments array" |} |}.
Proof.
  apply (growth_failure_reported unit accept_all 8 initial_only "(null)"
           (mk_ctx XOPT_CTX_KEEPFIRST [])
           ["0"; "1"; "2"; "3"; "4"; "5"; "6"; "7"; "8"; "9"; "10"] tt);
    first [ lia | reflexivity | simpl; unfold EXTRAS_INIT; lia
          | repeat constructor; discriminate ].
Defined.

Lemma value_option_before_last_witness :
  let e0 := {| e_data := tt; e_calls := []; e_err := None |} in
  _xopt_parse_arg unit accept_all "(null)"
    (mk_ctx 0 [value_opt "c"; flag_opt "b"]) 3 ["prog"; "-cb"; "val"] 1 e0
  = Returns (false, 1,
             {| e_data := tt; e_calls := [(flag_opt "b", None)];
                e_err := Some "missing option value: -c" |}).
Proof.
  intros e0.
  apply (value_option_before_last unit accept_all "(null)"
           (mk_ctx 0 [value_opt "c"; flag_opt "b"]) ["prog"; "-cb"; "val"] 1 e0
           "c" "b" (value_opt "c") (flag_opt "b"));
    first [reflexivity | discriminate].
Defined.
